(** * Tower game: the block-stacking engine

    A shallow embedding of [GameEngine] (the engine class of the game) and of
    [GAME_CONFIG] (constants.ts), followed by the properties of the written
    specification that concern the engine.

    Modelling conventions.
    - JavaScript numbers that hold measurements (positions, extents,
      tolerances, velocities, particle life) are exact rationals [Q]; the
      source computes them in IEEE double precision, so the model is the
      rounding-free reading of the same expressions.  [score] and
      [comboCounter] only ever hold integers and are [Z];
      [Math.floor (a / b)] on them is [Z.div].
    - [this.stack], [this.debris] and [this.particles] are lists in array
      order: [push] appends at the end, the tower top is the last element.
    - A [TypeError] raised by dereferencing [undefined] is the outcome
      [Throw], carrying the engine as it was left by the statements that ran
      before the exception.
    - The two callbacks [onScoreUpdate] and [onGameOver] are recorded, in call
      order, in the field [emitted].
    - [Math.random ()] is an oracle [rnd : nat -> Q] handed to each call that
      may draw from it; [rnd k] is the k-th draw of that call.
    - Scene graph, camera, renderer, sound and haptics are collaborators that
      return nothing to the engine and are not part of the engine record.  The
      colour of a layer, the camera ([handleResize] and the smoothing at the
      end of [animate]) and the note selection of the sound manager are
      modelled on their own, after the engine.  A particle keeps its
      [life] and the opacity of its material; its position and velocity (the
      latter is built from a normalised vector) are display only and left out.
    - When the game ends the source stores the very same mesh object in
      [currentBlock] and in the last debris entry, and the debris loop of
      [animate] then moves that object.  The model keeps a copy in
      [currentBlock], which stays where the block was missed; no code path
      reads that copy before [reviveGame] or [startGame] replace it, and no
      property below speaks of the position of [currentBlock] unless the game
      is running. *)

From Stdlib Require Import ZArith QArith Qabs Qminmax Qround Qpower Lqa Lia List Bool.
Import ListNotations.
Open Scope Q_scope.

(** Rational arithmetic stays folded when engine terms are simplified. *)
#[local] Arguments Qplus : simpl never.
#[local] Arguments Qminus : simpl never.
#[local] Arguments Qmult : simpl never.
#[local] Arguments Qdiv : simpl never.
#[local] Arguments Qopp : simpl never.
#[local] Arguments Qabs : simpl never.
#[local] Arguments Qmin : simpl never.
#[local] Arguments Qle_bool : simpl never.
#[local] Arguments Qeq_bool : simpl never.
#[local] Arguments inject_Z : simpl never.
#[local] Arguments Z.div : simpl never.
#[local] Arguments Z.add : simpl never.
#[local] Arguments Z.geb : simpl never.
#[local] Arguments Z.ltb : simpl never.
#[local] Arguments seq : simpl never.

(** ** Configuration (constants.ts) *)

Module GAME_CONFIG.
Definition defaultBlockSize : Q := 3.
Definition blockHeight : Q := 1.
Definition moveSpeed : Q := 0.15.
Definition errorTolerance : Q := 0.2.
Definition initialErrorTolerance : Q := 0.6.
Definition difficultyRamp : Z := 15.
Definition comboThreshold : Z := 3.
Definition growthFactor : Q := 0.5.
End GAME_CONFIG.
Import GAME_CONFIG.

(** ** Numbers and arrays *)

(** [a < b] as the boolean test the source performs. *)
Definition Qltb (a b : Q) : bool := negb (Qle_bool b a).

(** [arr[arr.length - 1]]: [None] stands for [undefined]. *)
Fixpoint top {A : Type} (l : list A) : option A :=
  match l with
  | [] => None
  | [x] => Some x
  | _ :: t => top t
  end.

Definition push {A : Type} (l : list A) (x : A) : list A := l ++ [x].

(** The loops of [animate] over debris and particles:
    [for (let i = arr.length - 1; i >= 0; i--)], updating [arr[i]] in place
    and calling [arr.splice (i, 1)] when the updated entry is finished. *)
Fixpoint sweepFrom {A : Type} (step : A -> A) (gone : A -> bool)
    (i : nat) (l : list A) : list A :=
  match i with
  | O => l
  | S j =>
      match nth_error l j with
      | None => sweepFrom step gone j l
      | Some e =>
          let e' := step e in
          if gone e'
          then sweepFrom step gone j (firstn j l ++ skipn (S j) l)
          else sweepFrom step gone j (firstn j l ++ e' :: skipn (S j) l)
      end
  end.

Definition reverseSweep {A : Type} (step : A -> A) (gone : A -> bool)
    (l : list A) : list A :=
  sweepFrom step gone (length l) l.

#[local] Arguments reverseSweep {A} step gone l : simpl never.

(** ** Data model *)

Record Vector3 := Vec { vx : Q; vy : Q; vz : Q }.

Definition vadd (a b : Vector3) : Vector3 :=
  Vec (vx a + vx b) (vy a + vy b) (vz a + vz b).

(** A mesh with a box geometry: [geometry.parameters.width] and [.depth]
    (the height is always [blockHeight]). *)
Record Mesh := mkMesh {
  position : Vector3;
  rotation : Vector3;
  width : Q;
  depth : Q
}.

Record Debris := mkDebris {
  mesh : Mesh;
  velocity : Vector3;
  rotVelocity : Vector3
}.

Record Particle := mkParticle {
  life : Q;
  opacity : Q
}.

Inductive Axis := AxisX | AxisZ.

Inductive Event :=
| ScoreUpdate (score multiplier : Z)
| GameOver (finalScore : Z).

Record Engine := mkEngine {
  stack : list Mesh;
  debris : list Debris;
  particles : list Particle;
  frameRequested : bool;
  isGameRunning : bool;
  score : Z;
  axis : Axis;
  direction : Q;
  currentBlock : option Mesh;
  comboCounter : Z;
  emitted : list Event
}.

Inductive outcome :=
| Done (s : Engine)
| Throw (s : Engine).

Definition engineOf (o : outcome) : Engine :=
  match o with Done s | Throw s => s end.

Definition thrown (o : outcome) : bool :=
  match o with Done _ => false | Throw _ => true end.

Definition bind (o : outcome) (k : Engine -> outcome) : outcome :=
  match o with Done s => k s | Throw s => Throw s end.

Notation "o >>= k" := (bind o k) (at level 50, left associativity).

(** Field assignments. *)
Definition setStack v s :=
  mkEngine v (debris s) (particles s) (frameRequested s) (isGameRunning s)
    (score s) (axis s) (direction s) (currentBlock s) (comboCounter s) (emitted s).
Definition setDebris v s :=
  mkEngine (stack s) v (particles s) (frameRequested s) (isGameRunning s)
    (score s) (axis s) (direction s) (currentBlock s) (comboCounter s) (emitted s).
Definition setParticles v s :=
  mkEngine (stack s) (debris s) v (frameRequested s) (isGameRunning s)
    (score s) (axis s) (direction s) (currentBlock s) (comboCounter s) (emitted s).
Definition setFrameRequested v s :=
  mkEngine (stack s) (debris s) (particles s) v (isGameRunning s)
    (score s) (axis s) (direction s) (currentBlock s) (comboCounter s) (emitted s).
Definition setRunning v s :=
  mkEngine (stack s) (debris s) (particles s) (frameRequested s) v
    (score s) (axis s) (direction s) (currentBlock s) (comboCounter s) (emitted s).
Definition setScore v s :=
  mkEngine (stack s) (debris s) (particles s) (frameRequested s) (isGameRunning s)
    v (axis s) (direction s) (currentBlock s) (comboCounter s) (emitted s).
Definition setAxis v s :=
  mkEngine (stack s) (debris s) (particles s) (frameRequested s) (isGameRunning s)
    (score s) v (direction s) (currentBlock s) (comboCounter s) (emitted s).
Definition setDirection v s :=
  mkEngine (stack s) (debris s) (particles s) (frameRequested s) (isGameRunning s)
    (score s) (axis s) v (currentBlock s) (comboCounter s) (emitted s).
Definition setCurrent v s :=
  mkEngine (stack s) (debris s) (particles s) (frameRequested s) (isGameRunning s)
    (score s) (axis s) (direction s) v (comboCounter s) (emitted s).
Definition setCombo v s :=
  mkEngine (stack s) (debris s) (particles s) (frameRequested s) (isGameRunning s)
    (score s) (axis s) (direction s) (currentBlock s) v (emitted s).
Definition emit (e : Event) s :=
  mkEngine (stack s) (debris s) (particles s) (frameRequested s) (isGameRunning s)
    (score s) (axis s) (direction s) (currentBlock s) (comboCounter s)
    (push (emitted s) e).

Definition setX (x : Q) (m : Mesh) : Mesh :=
  mkMesh (Vec x (vy (position m)) (vz (position m))) (rotation m) (width m) (depth m).
Definition setZ (z : Q) (m : Mesh) : Mesh :=
  mkMesh (Vec (vx (position m)) (vy (position m)) z) (rotation m) (width m) (depth m).
Definition setGeometry (w d : Q) (m : Mesh) : Mesh :=
  mkMesh (position m) (rotation m) w d.

Definition otherAxis (a : Axis) : Axis :=
  match a with AxisX => AxisZ | AxisZ => AxisX end.

(** The coordinate of a point, and the extent of a box, along an axis. *)
Definition coord (a : Axis) (v : Vector3) : Q :=
  match a with AxisX => vx v | AxisZ => vz v end.
Definition extent (a : Axis) (m : Mesh) : Q :=
  match a with AxisX => width m | AxisZ => depth m end.

(** ** Difficulty and combo model *)

(** [currentTolerance] of [placeBlock], as a function of [this.score]. *)
Definition currentTolerance (sc : Z) : Q :=
  if (sc <? difficultyRamp)%Z
  then
    let progress := inject_Z sc / inject_Z difficultyRamp in
    initialErrorTolerance - progress * (initialErrorTolerance - errorTolerance)
  else errorTolerance.

(** [multiplier] of [handleSuccessfulPlacement], as a function of
    [this.comboCounter]. *)
Definition multiplier (combo : Z) : Z :=
  if (combo >=? comboThreshold)%Z
  then (combo / comboThreshold + 1)%Z
  else 1%Z.

(** ** Engine operations *)

Definition cleanup (s : Engine) : Engine :=
  setCurrent None (setParticles [] (setDebris [] (setStack [] s))).

Definition baseBlock : Mesh :=
  mkMesh (Vec 0 0 0) (Vec 0 0 0) defaultBlockSize defaultBlockSize.

Definition spawnBaseBlock (s : Engine) : Engine :=
  let s := cleanup s in
  setStack (push (stack s) baseBlock) s.

(** One extent of the next block when the combo bonus applies. *)
Definition grow (e : Q) : Q :=
  if Qltb e defaultBlockSize
  then Qmin defaultBlockSize (e + growthFactor)
  else e.

Definition spawnDist : Q := 12.

Definition spawnNextBlock (s : Engine) : outcome :=
  match top (stack s) with
  | None => Throw s
  | Some prevBlock =>
      let w := width prevBlock in
      let d := depth prevBlock in
      let bonus := (comboCounter s >=? comboThreshold)%Z in
      let w := if bonus then grow w else w in
      let d := if bonus then grow d else d in
      let p := position prevBlock in
      let pos :=
        match axis s with
        | AxisX => Vec (vx p - spawnDist) (vy p + blockHeight) (vz p)
        | AxisZ => Vec (vx p) (vy p + blockHeight) (vz p - spawnDist)
        end in
      Done (setCurrent (Some (mkMesh pos (Vec 0 0 0) w d)) s)
  end.

Definition startGame (s : Engine) : outcome :=
  let s := cleanup s in
  let s := setRunning true s in
  let s := setScore 0%Z s in
  let s := setAxis AxisX s in
  let s := setDirection 1 s in
  let s := setCombo 0%Z s in
  let s := emit (ScoreUpdate 0 1) s in
  let s := spawnBaseBlock s in
  spawnNextBlock s.

Definition reviveGame (s : Engine) : outcome :=
  if isGameRunning s then Done s
  else
    let s := setDebris (removelast (debris s)) s in
    let s := setRunning true s in
    let s := setCurrent None s in
    spawnNextBlock s.

(** The burst of [spawnPerfectParticles]: twenty particles, four draws each
    (spreadX, spreadZ, speed, life), pushed in loop order.  A fresh
    [MeshBasicMaterial] has opacity 1.  The arguments [pos], [width] and
    [depth] of the source only place the particle's mesh and are dropped with
    it.  The life is 1 + r / 2 for a draw r in [0, 1): below 1.5 as a
    rational; the double-precision sum of the source rounds to 1.5 itself for
    the largest draws, never above it. *)
Definition particleCount : nat := 20.

Definition newParticle (rnd : nat -> Q) (k : nat) (i : nat) : Particle :=
  mkParticle (1 + rnd (k + 4 * i + 3)%nat * 0.5) 1.

Definition spawnPerfectParticles (rnd : nat -> Q) (k : nat) (s : Engine) : Engine :=
  setParticles (particles s ++ map (newParticle rnd k) (seq 0 particleCount)) s.

(** The local variables of [placeBlock] once both branches of the snap test
    have run. *)
Record Placement := mkPlacement {
  perfect : bool;
  delta : Q;
  overlap : Q;
  newWidth : Q;
  newDepth : Q
}.

(** [delta] as first computed: the signed offset along the active axis. *)
Definition offset (a : Axis) (current prev : Mesh) : Q :=
  coord a (position current) - coord a (position prev).

Definition measure (a : Axis) (tol : Q) (current prev : Mesh) : Placement :=
  let d := offset a current prev in
  if Qltb (Qabs d) tol
  then
    mkPlacement true 0 (extent a current) (width current) (depth current)
  else
    match a with
    | AxisX =>
        let ov := width prev - Qabs d in
        mkPlacement false d ov ov (depth current)
    | AxisZ =>
        let ov := depth prev - Qabs d in
        mkPlacement false d ov (width current) ov
    end.

(** The debris cut off by a trimmed placement; [None] when the remainder is a
    sliver.  [cur] is the moving block after trimming and recentring. *)
Definition cutDebris (rnd : nat -> Q) (k : nat) (a : Axis) (d nw nd : Q)
    (cur : Mesh) : option Debris :=
  if Qeq_bool d 0 then None
  else
    let dWidth := match a with AxisX => Qabs d | AxisZ => nw end in
    let dDepth := match a with AxisZ => Qabs d | AxisX => nd end in
    if Qltb 0.05 dWidth && Qltb 0.05 dDepth
    then
      let p := position cur in
      let pos :=
        match a with
        | AxisX =>
            Vec (if Qltb 0 d then vx p + nw / 2 + dWidth / 2
                 else vx p - nw / 2 - dWidth / 2) (vy p) (vz p)
        | AxisZ =>
            Vec (vx p) (vy p)
                (if Qltb 0 d then vz p + nd / 2 + dDepth / 2
                 else vz p - nd / 2 - dDepth / 2)
        end in
      let along := d * 0.3 + (if Qltb 0 d then 0.1 else - 0.1) in
      let aside := (rnd k - 0.5) * 0.1 in
      let v_x := match a with AxisX => along | AxisZ => aside end in
      let v_z := match a with AxisZ => along | AxisX => aside end in
      let v_y := - 0.1 - rnd (k + 1)%nat * 0.3 in
      Some (mkDebris (mkMesh pos (Vec 0 0 0) dWidth dDepth)
              (Vec v_x v_y v_z)
              (Vec ((rnd (k + 2)%nat - 0.5) * 0.3)
                   ((rnd (k + 3)%nat - 0.5) * 0.1)
                   ((rnd (k + 4)%nat - 0.5) * 0.3)))
    else None.

Definition handleSuccessfulPlacement (rnd : nat -> Q) (k : nat)
    (d nw nd : Q) (prevPos : Vector3) (s : Engine) : outcome :=
  match currentBlock s with
  | None => Done s
  | Some cur =>
      let cur := setGeometry nw nd cur in
      let shift := d / 2 in
      let cur :=
        match axis s with
        | AxisX => setX (vx prevPos + shift) cur
        | AxisZ => setZ (vz prevPos + shift) cur
        end in
      let s := setCurrent (Some cur) s in
      let s :=
        match cutDebris rnd k (axis s) d nw nd cur with
        | Some piece => setDebris (push (debris s) piece) s
        | None => s
        end in
      let m := multiplier (comboCounter s) in
      let s := setStack (push (stack s) cur) s in
      let s := setScore (score s + m)%Z s in
      let s := emit (ScoreUpdate (score s) m) s in
      let s := setAxis (otherAxis (axis s)) s in
      spawnNextBlock s
  end.

Definition handleGameOver (rnd : nat -> Q) (k : nat) (s : Engine) : Engine :=
  let s := setRunning false s in
  let s :=
    match currentBlock s with
    | Some cur =>
        let dirX := match axis s with AxisX => direction s | AxisZ => 0 end in
        let dirZ := match axis s with AxisZ => direction s | AxisX => 0 end in
        setDebris
          (push (debris s)
             (mkDebris cur (Vec (dirX * 0.2) (- 0.5) (dirZ * 0.2))
                (Vec ((rnd k - 0.5) * 0.3)
                     ((rnd (k + 1)%nat - 0.5) * 0.1)
                     ((rnd (k + 2)%nat - 0.5) * 0.3)))) s
    | None => s
    end in
  emit (GameOver (score s)) s.

Definition placeBlock (rnd : nat -> Q) (s : Engine) : outcome :=
  if negb (isGameRunning s) then Done s
  else
    match currentBlock s with
    | None => Done s
    | Some current =>
        match top (stack s) with
        | None => Throw s
        | Some prev =>
            let prevPos := position prev in
            let pl := measure (axis s) (currentTolerance (score s)) current prev in
            let s :=
              if perfect pl
              then
                let snapped :=
                  match axis s with
                  | AxisX => setX (vx prevPos) current
                  | AxisZ => setZ (vz prevPos) current
                  end in
                let s := setCurrent (Some snapped) s in
                let s := setCombo (comboCounter s + 1)%Z s in
                spawnPerfectParticles rnd 0 s
              else setCombo 0%Z s in
            let k := if perfect pl then (4 * particleCount)%nat else O in
            if Qltb 0 (overlap pl)
            then handleSuccessfulPlacement rnd k (delta pl) (newWidth pl)
                   (newDepth pl) prevPos s
            else Done (handleGameOver rnd k s)
        end
    end.

(** One frame of [animate]. *)
Definition stepDebris (d : Debris) : Debris :=
  let m := mesh d in
  let v := velocity d in
  mkDebris
    (mkMesh (vadd (position m) v) (vadd (rotation m) (rotVelocity d))
       (width m) (depth m))
    (Vec (vx v) (vy v - 0.05) (vz v))
    (rotVelocity d).

Definition fallenOut (d : Debris) : bool := Qltb (vy (position (mesh d))) (- 30).

Definition stepParticle (p : Particle) : Particle :=
  let l := life p - 0.05 in
  mkParticle l l.

Definition faded (p : Particle) : bool := Qle_bool (life p) 0.

Definition moveCurrent (s : Engine) : outcome :=
  match isGameRunning s, currentBlock s with
  | true, Some cur =>
      let speed := moveSpeed + inject_Z (score s) * 0.005 in
      let actualSpeed := Qmin speed 0.4 in
      let a := axis s in
      let c := coord a (position cur) + actualSpeed * direction s in
      let cur := match a with AxisX => setX c cur | AxisZ => setZ c cur end in
      let s := setCurrent (Some cur) s in
      match top (stack s) with
      | None => Throw s
      | Some t =>
          if Qltb 13 (Qabs (c - coord a (position t)))
          then Done (setDirection (direction s * - 1) s)
          else Done s
      end
  | _, _ => Done s
  end.

Definition animate (s : Engine) : outcome :=
  moveCurrent s >>= fun s =>
  let s := setDebris (reverseSweep stepDebris fallenOut (debris s)) s in
  let s := setParticles (reverseSweep stepParticle faded (particles s)) s in
  Done (setFrameRequested true s).

Fixpoint animateN (n : nat) (s : Engine) : outcome :=
  match n with
  | O => Done s
  | S m => animate s >>= animateN m
  end.

Definition dispose (s : Engine) : Engine :=
  cleanup (setFrameRequested false s).

(** The engine as the constructor leaves it: the first [animate] frame finds
    nothing to move and only requests the next frame, then the base block is
    shown. *)
Definition emptyEngine : Engine :=
  mkEngine [] [] [] false false 0%Z AxisX 1 None 0%Z [].

Definition newEngine : Engine :=
  spawnBaseBlock (engineOf (animate emptyEngine)).

(** ** Runs of the game *)

(** The snap test of [placeBlock] on the engine as it stands: the game is
    running, there is a moving block and a tower top, and the offset along the
    active axis is within the current tolerance. *)
Definition snaps (s : Engine) : bool :=
  match currentBlock s, top (stack s) with
  | Some current, Some prev =>
      isGameRunning s &&
      Qltb (Qabs (offset (axis s) current prev)) (currentTolerance (score s))
  | _, _ => false
  end.

(** A sequence of perfect placements: before each tap the frame loop runs
    [n] frames, the tap must find the block within tolerance, and the tap is
    served with its own random draws. *)
Fixpoint perfectPlays (plays : list (nat * (nat -> Q))) (s : Engine)
    : option Engine :=
  match plays with
  | [] => Some s
  | (n, rnd) :: rest =>
      match animateN n s with
      | Done s1 =>
          if snaps s1
          then match placeBlock rnd s1 with
               | Done s2 => perfectPlays rest s2
               | Throw _ => None
               end
          else None
      | Throw _ => None
      end
  end.

(** [Math.random ()] returns a number in [0, 1). *)
Definition unitDraws (rnd : nat -> Q) : Prop := forall k, 0 <= rnd k /\ rnd k < 1.

(** Engines that the public interface and the frame loop can produce, starting
    from the constructor.  An operation that throws leaves the engine behind,
    and later calls act on it. *)
Inductive reachable : Engine -> Prop :=
| reach_new : reachable newEngine
| reach_start s : reachable s -> reachable (engineOf (startGame s))
| reach_revive s : reachable s -> reachable (engineOf (reviveGame s))
| reach_place rnd s :
    unitDraws rnd -> reachable s -> reachable (engineOf (placeBlock rnd s))
| reach_animate s : reachable s -> reachable (engineOf (animate s))
| reach_dispose s : reachable s -> reachable (dispose s).

(** Extents of a block that the game can show. *)
Definition fits (m : Mesh) : Prop :=
  0 < width m /\ width m <= defaultBlockSize /\
  0 < depth m /\ depth m <= defaultBlockSize.

Definition glowing (p : Particle) : Prop := 0 < life p /\ life p < 1.5.

Record wellFormed (s : Engine) : Prop := mkWellFormed {
  wf_tower : currentBlock s <> None -> stack s <> [];
  wf_stack : Forall fits (stack s);
  wf_current : forall c, currentBlock s = Some c -> fits c;
  wf_particles : Forall glowing (particles s)
}.

(** The engine is running and the moving block sits at least one reference
    extent away from the tower top along the active axis. *)
Definition fullMiss (s : Engine) : bool :=
  match currentBlock s, top (stack s) with
  | Some current, Some prev =>
      isGameRunning s &&
      Qle_bool (extent (axis s) prev) (Qabs (offset (axis s) current prev))
  | _, _ => false
  end.

(** What a run of perfect placements relies on: a running game whose moving
    block has positive extents and a tower to land on. *)
Definition ready (s : Engine) : Prop :=
  isGameRunning s = true /\
  exists c p,
    currentBlock s = Some c /\ top (stack s) = Some p /\
    0 < width c /\ 0 < depth c.

(** Score and onScoreUpdate calls of [n] snaps in a row, from score [sc] and
    combo [combo]. *)
Fixpoint scoreAfter (n : nat) (sc combo : Z) : Z :=
  match n with
  | O => sc
  | S m => scoreAfter m (sc + multiplier (combo + 1))%Z (combo + 1)%Z
  end.

Fixpoint reports (n : nat) (sc combo : Z) : list Event :=
  match n with
  | O => []
  | S m =>
      ScoreUpdate (sc + multiplier (combo + 1))%Z (multiplier (combo + 1))
      :: reports m (sc + multiplier (combo + 1))%Z (combo + 1)%Z
  end.

(** The moving block before and after a frame: present or absent alike, and
    of the same extents. *)
Definition sameBlock (o o' : option Mesh) : Prop :=
  match o, o' with
  | Some c, Some c' => width c' = width c /\ depth c' = depth c
  | None, None => True
  | _, _ => False
  end.

(** The moving block that [startGame] spawns over the base block. *)
Definition firstBlock : Mesh :=
  mkMesh (Vec (0 - spawnDist) (0 + blockHeight) 0) (Vec 0 0 0)
    defaultBlockSize defaultBlockSize.

(** The entities the engine owns, counted per slot: tower blocks, debris,
    particles and the moving block. *)
Definition entityCount (s : Engine) : nat :=
  (length (stack s) + length (debris s) + length (particles s)
   + match currentBlock s with Some _ => 1 | None => 0 end)%nat.

(** ** Sample runs *)

(** A random source whose every draw is one half. *)
Definition steadyDraws : nat -> Q := fun _ => 0.5.

(** A game that has just been started on a fresh engine. *)
Definition freshGame : Engine := engineOf (startGame newEngine).

(** The fresh game with the moving block 0.9 short of the base block. *)
Definition shiftedGame : Engine :=
  mkEngine [baseBlock] [] [] true true 0%Z AxisX 1
    (Some (setX (- 0.9) firstBlock)) 0%Z [ScoreUpdate 0 1].

(** The fresh game with the moving block exactly one base width short of the
    base block (where 60 frames bring it). *)
Definition edgeGame : Engine :=
  mkEngine [baseBlock] [] [] true true 0%Z AxisX 1
    (Some (setX (- 3) firstBlock)) 0%Z [ScoreUpdate 0 1].

(** A game on its third combo whose tower top has been trimmed to width 2. *)
Definition comboGame : Engine :=
  mkEngine [baseBlock; mkMesh (Vec 0 1 0) (Vec 0 0 0) 2 3] [] [] true true 4%Z
    AxisZ 1 None 3%Z [].

(** Start and wait 80 frames: the block is then over the base. *)
Definition centredGame : Engine := engineOf (animateN 80 freshGame).

Definition centredBlock : Mesh :=
  match currentBlock centredGame with
  | Some c => c
  | None => firstBlock
  end.

(** ... and tap. *)
Definition burstGame : Engine := engineOf (placeBlock steadyDraws centredGame).

(** Five taps, each after the number of frames that brings the block within
    tolerance of the tower top. *)
Definition fiveTaps : list (nat * (nat -> Q)) :=
  [(80, steadyDraws); (77, steadyDraws); (75, steadyDraws);
   (70, steadyDraws); (66, steadyDraws)]%nat.

Definition afterFiveTaps : Engine :=
  match perfectPlays fiveTaps freshGame with
  | Some g => g
  | None => freshGame
  end.

(** Start; tap after 61 frames (the block keeps 0.15 of its width); tap after
    77 frames (a snap along z); wait 74 frames: the block, 0.15 wide, is now
    0.16 away from the tower top along x. *)
Definition narrowTower : Engine :=
  engineOf (animateN 74
    (engineOf (placeBlock steadyDraws
      (engineOf (animateN 77
        (engineOf (placeBlock steadyDraws
          (engineOf (animateN 61 freshGame))))))))).

(** Start and wait 74 frames: the block is then 0.9 short of the base. *)
Definition offCentreGame : Engine := engineOf (animateN 74 freshGame).

(** Width and depth of the moving block, in lowest terms. *)
Definition movingExtents (s : Engine) : option (Q * Q) :=
  option_map (fun c => (Qred (width c), Qred (depth c))) (currentBlock s).

(** A game whose tower has been trimmed to a depth of 0.04 along z; the
    moving block, as deep, is 0.9 short of the tower top along x. *)
Definition thinGame : Engine :=
  mkEngine
    [baseBlock; mkMesh (Vec 0 1 0) (Vec 0 0 0) 3 3;
     mkMesh (Vec 0 2 1.48) (Vec 0 0 0) 3 0.04]
    [] [] true true 2%Z AxisX 1
    (Some (mkMesh (Vec (- 0.9) 3 1.48) (Vec 0 0 0) 3 0.04)) 0%Z
    [ScoreUpdate 0 1; ScoreUpdate 1 1; ScoreUpdate 2 1].

(** ** Named parts of the engine operations *)

(** The moving block as [handleSuccessfulPlacement] lays it on the tower:
    new geometry, recentred by half the offset. *)
Definition landed (a : Axis) (d nw nd : Q) (prevPos : Vector3) (c : Mesh) : Mesh :=
  match a with
  | AxisX => setX (vx prevPos + d / 2) (setGeometry nw nd c)
  | AxisZ => setZ (vz prevPos + d / 2) (setGeometry nw nd c)
  end.

(** The mesh that [spawnNextBlock] creates over [prevBlock]. *)
Definition spawned (a : Axis) (combo : Z) (prevBlock : Mesh) : Mesh :=
  let bonus := (combo >=? comboThreshold)%Z in
  let p := position prevBlock in
  mkMesh
    match a with
    | AxisX => Vec (vx p - spawnDist) (vy p + blockHeight) (vz p)
    | AxisZ => Vec (vx p) (vy p + blockHeight) (vz p - spawnDist)
    end
    (Vec 0 0 0)
    (if bonus then grow (width prevBlock) else width prevBlock)
    (if bonus then grow (depth prevBlock) else depth prevBlock).

(** [actualSpeed] of [animate], as a function of [this.score]. *)
Definition actualSpeed (sc : Z) : Q := Qmin (moveSpeed + inject_Z sc * 0.005) 0.4.

(** The two faces of a block across an axis. *)
Definition lowEdge (a : Axis) (m : Mesh) : Q :=
  coord a (position m) - extent a m * (1 # 2).
Definition highEdge (a : Axis) (m : Mesh) : Q :=
  coord a (position m) + extent a m * (1 # 2).

(** The moving block with its coordinate along the active axis set to that
    of the tower top: the snap of [placeBlock]. *)
Definition snapped (a : Axis) (prev c : Mesh) : Mesh :=
  match a with
  | AxisX => setX (vx (position prev)) c
  | AxisZ => setZ (vz (position prev)) c
  end.

(** The engine after a snap that lands, after a trimmed placement that lands,
    and after a placement that is no snap and misses. *)
Definition afterSnap (rnd : nat -> Q) (s : Engine) (c p : Mesh) : Engine :=
  let a := axis s in
  let combo := (comboCounter s + 1)%Z in
  let cur := landed a 0 (width c) (depth c) (position p) (snapped a p c) in
  mkEngine (push (stack s) cur) (debris s)
    (particles s ++ map (newParticle rnd 0) (seq 0 particleCount))
    (frameRequested s) true (score s + multiplier combo)%Z (otherAxis a)
    (direction s) (Some (spawned (otherAxis a) combo cur)) combo
    (push (emitted s)
       (ScoreUpdate (score s + multiplier combo) (multiplier combo))).

Definition afterTrim (rnd : nat -> Q) (s : Engine) (c p : Mesh) : Engine :=
  let a := axis s in
  let d := offset a c p in
  let ov := extent a p - Qabs d in
  let nw := match a with AxisX => ov | AxisZ => width c end in
  let nd := match a with AxisX => depth c | AxisZ => ov end in
  let cur := landed a d nw nd (position p) c in
  mkEngine (push (stack s) cur)
    match cutDebris rnd 0 a d nw nd cur with
    | Some piece => push (debris s) piece
    | None => debris s
    end
    (particles s) (frameRequested s) true (score s + 1)%Z (otherAxis a)
    (direction s) (Some (spawned (otherAxis a) 0 cur)) 0%Z
    (push (emitted s) (ScoreUpdate (score s + 1) 1)).

Definition afterMiss (rnd : nat -> Q) (s : Engine) (c : Mesh) : Engine :=
  let dirX := match axis s with AxisX => direction s | AxisZ => 0 end in
  let dirZ := match axis s with AxisZ => direction s | AxisX => 0 end in
  mkEngine (stack s)
    (push (debris s)
       (mkDebris c (Vec (dirX * 0.2) (- 0.5) (dirZ * 0.2))
          (Vec ((rnd 0%nat - 0.5) * 0.3) ((rnd 1%nat - 0.5) * 0.1)
               ((rnd 2%nat - 0.5) * 0.3))))
    (particles s) (frameRequested s) false (score s) (axis s) (direction s)
    (Some c) 0%Z (push (emitted s) (GameOver (score s))).

(** The moving block one frame later, and the engine after a frame that
    moves it. *)
Definition moved (a : Axis) (step : Q) (c : Mesh) : Mesh :=
  match a with
  | AxisX => setX (vx (position c) + step) c
  | AxisZ => setZ (vz (position c) + step) c
  end.

Definition afterFrame (s : Engine) (c p : Mesh) : Engine :=
  let a := axis s in
  let c' := moved a (actualSpeed (score s) * direction s) c in
  mkEngine (stack s)
    (reverseSweep stepDebris fallenOut (debris s))
    (reverseSweep stepParticle faded (particles s))
    true (isGameRunning s) (score s) a
    (if Qltb 13 (Qabs (offset a c' p)) then direction s * - 1 else direction s)
    (Some c') (comboCounter s) (emitted s).

(** The engine after a frame that has no block to move. *)
Definition afterIdleFrame (s : Engine) : Engine :=
  mkEngine (stack s)
    (reverseSweep stepDebris fallenOut (debris s))
    (reverseSweep stepParticle faded (particles s))
    true (isGameRunning s) (score s) (axis s) (direction s)
    (currentBlock s) (comboCounter s) (emitted s).

(** The engine after [reviveGame] has respawned the moving block over [p]. *)
Definition afterRevive (s : Engine) (p : Mesh) : Engine :=
  mkEngine (stack s) (removelast (debris s)) (particles s) (frameRequested s)
    true (score s) (axis s) (direction s)
    (Some (spawned (axis s) (comboCounter s) p)) (comboCounter s) (emitted s).

(** ** Further invariants of reachable engines *)

(** Counters: score and combo are never negative and every block above the
    base has earned at least one point. *)
Definition tallied (s : Engine) : Prop :=
  (0 <= score s)%Z /\ (0 <= comboCounter s)%Z /\
  (Z.of_nat (length (stack s)) <= score s + 1)%Z.

(** The tower is a column: the block at index [i] sits at height [i], and
    the moving block, when there is one, one block above the top. *)
Definition stacked (s : Engine) : Prop :=
  (forall i m, nth_error (stack s) i = Some m ->
     vy (position m) == inject_Z (Z.of_nat i)) /\
  (forall c, currentBlock s = Some c ->
     vy (position c) == inject_Z (Z.of_nat (length (stack s)))).

(** The travel of the moving block: the direction is 1 or -1; while the game
    runs the block is level with the tower top across the active axis, at most
    one frame's travel beyond the turning distance 13 along it, and heading
    back when it is beyond. *)
Definition turnDist : Q := 13.

Definition oscillating (s : Engine) : Prop :=
  (direction s = 1 \/ direction s = - (1)) /\
  (forall c p,
     isGameRunning s = true -> currentBlock s = Some c ->
     top (stack s) = Some p ->
     let a := axis s in
     let d := offset a c p in
     coord (otherAxis a) (position c) = coord (otherAxis a) (position p) /\
     - turnDist - actualSpeed (score s) <= d /\
     d <= turnDist + actualSpeed (score s) /\
     (turnDist < d -> direction s = - (1)) /\
     (d < - turnDist -> direction s = 1)).

(** Debris only falls. *)
Definition sinking (d : Debris) : Prop := vy (velocity d) <= - 0.1.

(** The active axis tells the parity of the tower height. *)
Definition axisOfHeight (n : nat) : Axis := if Nat.odd n then AxisX else AxisZ.

(** A game whose first block has just been trimmed: start, wait 61 frames,
    tap.  One piece of debris is falling. *)
Definition trimmedGame : Engine :=
  engineOf (placeBlock steadyDraws (engineOf (animateN 61 freshGame))).

(** ** Presentation code of the engine *)

(** [arr[i]] for a numeric index: [None] is [undefined]. *)
Definition at_index {A : Type} (l : list A) (i : Z) : option A :=
  if (i <? 0)%Z then None else nth_error l (Z.to_nat i).

(** [Math.round]: the nearest integer, halves upwards. *)
Definition mathRound (x : Q) : Z := Qfloor (x + 0.5).

(** Block colours (constants.ts and [getLayerColor]).  The result of
    [getLayerColor] is given by the three integers written into the
    [rgb(r, g, b)] string handed to [THREE.Color]; [None] is the [TypeError]
    of reading a channel of [undefined]. *)
Module Color.

Record RGB := mkRGB { r : Z; g : Z; b : Z }.

Definition BLOCK_PALETTE : list RGB :=
  [ mkRGB 230 210 181; mkRGB 216 191 153; mkRGB 64 224 208;
    mkRGB 0 119 190; mkRGB 25 25 112 ].

Definition channel (cs ce : Z) (mix : Q) : Z :=
  mathRound (inject_Z cs + (inject_Z ce - inject_Z cs) * mix).

Definition getLayerColor (layer : Z) : option RGB :=
  let cycleLength := 20%Z in
  let progress := inject_Z (Z.rem layer cycleLength) / inject_Z cycleLength in
  let spans := (Z.of_nat (length BLOCK_PALETTE) - 1)%Z in
  let index := Z.min (Qfloor (progress * inject_Z spans)) (spans - 1) in
  match at_index BLOCK_PALETTE index, at_index BLOCK_PALETTE (index + 1) with
  | Some colorStart, Some colorEnd =>
      let mix := progress * inject_Z spans - inject_Z index in
      Some (mkRGB (channel (r colorStart) (r colorEnd) mix)
                  (channel (g colorStart) (g colorEnd) mix)
                  (channel (b colorStart) (b colorEnd) mix))
  | _, _ => None
  end.

Definition inGamut (c : RGB) : Prop :=
  (0 <= r c <= 255)%Z /\ (0 <= g c <= 255)%Z /\ (0 <= b c <= 255)%Z.

End Color.

(** The orthographic camera as [handleResize] and the end of [animate] drive
    it: the frustum, the height of the camera, and the size last given to the
    renderer. *)
Module Camera.

Record View := mkView {
  left : Q;
  right : Q;
  top : Q;
  bottom : Q;
  positionY : Q;
  canvasWidth : Z;
  canvasHeight : Z
}.

(** [handleResize] for a container of [width] x [height] pixels. *)
Definition handleResize (width height : Z) (v : View) : View :=
  if (width =? 0)%Z || (height =? 0)%Z then v
  else
    let aspect := inject_Z width / inject_Z height in
    let d := if Qltb aspect 1 then 12 else 9 in
    mkView (- d * aspect) (d * aspect) d (- d) (positionY v) width height.

(** The height the camera is drawn to, and the camera part of one frame of
    [animate]. *)
Definition camTargetY (s : Engine) : Q :=
  let currentTopY := inject_Z (Z.of_nat (length (stack s))) * blockHeight in
  let targetY := if isGameRunning s then currentTopY else blockHeight in
  20 + targetY.

Definition follow (s : Engine) (v : View) : View :=
  match stack s with
  | [] => v
  | _ :: _ =>
      mkView (left v) (right v) (top v) (bottom v)
        (positionY v + (camTargetY s - positionY v) * 0.05)
        (canvasWidth v) (canvasHeight v)
  end.

End Camera.

(** The sound manager, as far as it decides which notes sound: a note is the
    frequency and the [isPerfect] flag handed to [playNote] when audio is
    available and not muted; the oscillators, filters and envelopes behind a
    note are not modelled. *)
Module SoundManager.

Inductive Sound :=
| Note (freq : Q) (isPerfect : bool)
| GameOverChord.

(** [context] stands for "the AudioContext and its master gain exist"; the
    constructor creates both or neither. *)
Record t := mkSound {
  context : bool;
  isMuted : bool;
  noteIndex : nat
}.

Definition SCALE : list Q :=
  [ 261.63; 293.66; 329.63; 349.23; 392.00; 440.00; 493.88;
    523.25; 587.33; 659.25; 698.46; 783.99; 880.00; 987.77;
    1046.50; 1174.66; 1318.51; 1396.91; 1567.98; 1760.00; 1975.53 ].

Definition audible (sm : t) : bool := context sm && negb (isMuted sm).

Definition playNote (sm : t) (freq : Q) (isPerfect : bool) : list Sound :=
  if audible sm then [Note freq isPerfect] else [].

(** [this.SCALE[this.noteIndex % this.SCALE.length]]. *)
Definition tone (sm : t) : option Q :=
  nth_error SCALE (noteIndex sm mod length SCALE).

Definition advance (sm : t) : t :=
  mkSound (context sm) (isMuted sm) (S (noteIndex sm)).

(** The three play operations return the manager and the sounds made; [None]
    stands for a frequency read outside [SCALE]. *)
Definition playPlace (sm : t) : option (t * list Sound) :=
  match tone sm with
  | Some freq => Some (advance sm, playNote sm freq false)
  | None => None
  end.

Definition playPerfect (combo : Z) (sm : t) : option (t * list Sound) :=
  match tone sm with
  | Some freq =>
      Some (advance sm,
            playNote sm freq true
            ++ (if (combo >? 5)%Z then playNote sm (freq * 1.5) false else []))
  | None => None
  end.

Definition playGameOver (sm : t) : t * list Sound :=
  if audible sm
  then (mkSound (context sm) (isMuted sm) 0, [GameOverChord])
  else (sm, []).

(** The calls the engine makes during a game, and the sounds of a whole
    sequence of them. *)
Inductive Call :=
| Place
| Perfect (combo : Z)
| Over.

Definition play (c : Call) (sm : t) : option (t * list Sound) :=
  match c with
  | Place => playPlace sm
  | Perfect combo => playPerfect combo sm
  | Over => Some (playGameOver sm)
  end.

Fixpoint playAll (cs : list Call) (sm : t) : option (t * list Sound) :=
  match cs with
  | [] => Some (sm, [])
  | c :: rest =>
      match play c sm with
      | Some (sm1, heard) =>
          match playAll rest sm1 with
          | Some (sm2, later) => Some (sm2, heard ++ later)
          | None => None
          end
      | None => None
      end
  end.

(** The calls that ask for a note of the melody, and the melody index after
    a sequence of calls when every game over resets it. *)
Definition isNote (c : Call) : bool :=
  match c with Over => false | _ => true end.

Fixpoint melodyIndex (cs : list Call) (i : nat) : nat :=
  match cs with
  | [] => i
  | Over :: rest => melodyIndex rest 0
  | _ :: rest => melodyIndex rest (S i)
  end.

End SoundManager.

(** ** Basic facts *)

Lemma Qltb_lt (a b : Q) : Qltb a b = true <-> a < b.
Proof.
  unfold Qltb. rewrite negb_true_iff, <- not_true_iff_false, Qle_bool_iff.
  split; intro H; [apply Qnot_le_lt | apply Qlt_not_le]; exact H.
Qed.

Lemma Qltb_ge (a b : Q) : Qltb a b = false <-> b <= a.
Proof.
  unfold Qltb. rewrite negb_false_iff. apply Qle_bool_iff.
Qed.

Lemma top_push {A : Type} (l : list A) (x : A) : top (push l x) = Some x.
Proof.
  unfold push. induction l as [|a l IH]; [reflexivity|].
  simpl. destruct (l ++ [x]) eqn:E; [destruct l; discriminate | exact IH].
Qed.

Lemma top_some {A : Type} (l : list A) : l <> [] -> exists x, top l = Some x.
Proof.
  induction l as [|a l IH]; [congruence|]. intros _.
  destruct l as [|b l]; [exists a; reflexivity|].
  destruct IH as [x Hx]; [discriminate|]. exists x. exact Hx.
Qed.

Lemma top_In {A : Type} (l : list A) (x : A) : top l = Some x -> In x l.
Proof.
  induction l as [|a l IH]; [discriminate|].
  destruct l as [|b l]; simpl.
  - intros [= ->]. now left.
  - intros H. right. apply IH. exact H.
Qed.

(** The reverse loop with [splice] computes "update every entry, keep the
    unfinished ones". *)
Lemma sweepFrom_app {A : Type} (step : A -> A) (gone : A -> bool)
    (front back : list A) :
  sweepFrom step gone (length front) (front ++ back)
  = filter (fun e => negb (gone e)) (map step front) ++ back.
Proof.
  revert back. induction front as [|e front IH] using rev_ind; intros back.
  - reflexivity.
  - rewrite length_app, Nat.add_comm. cbn [length Nat.add sweepFrom].
    rewrite <- app_assoc. cbn [app].
    rewrite nth_error_app2, Nat.sub_diag by reflexivity. cbn [nth_error].
    replace (firstn (length front) (front ++ e :: back)) with front
      by (rewrite firstn_app, Nat.sub_diag, firstn_all; cbn; now rewrite app_nil_r).
    replace (skipn (S (length front)) (front ++ e :: back)) with back
      by (rewrite skipn_app, skipn_all2 by lia;
          now replace (S (length front) - length front)%nat with 1%nat by lia).
    rewrite map_app, filter_app. cbn [map filter].
    destruct (gone (step e)); cbn [negb]; rewrite IH.
    + now rewrite app_nil_r.
    + now rewrite <- app_assoc.
Qed.

Lemma reverseSweep_filter {A : Type} (step : A -> A) (gone : A -> bool)
    (l : list A) :
  reverseSweep step gone l = filter (fun e => negb (gone e)) (map step l).
Proof.
  unfold reverseSweep.
  rewrite <- (app_nil_r l) at 2. rewrite sweepFrom_app. apply app_nil_r.
Qed.

(** ** Growth and spawning *)

Lemma grow_ge (e : Q) : e <= grow e.
Proof.
  unfold grow, defaultBlockSize, growthFactor.
  destruct (Qltb e 3) eqn:E; [|apply Qle_refl].
  apply Qltb_lt in E. apply Q.min_glb; lra.
Qed.

Lemma grow_le (e : Q) : e <= defaultBlockSize -> grow e <= defaultBlockSize.
Proof.
  unfold grow. destruct (Qltb e defaultBlockSize); [|tauto].
  intros _. apply Q.le_min_l.
Qed.

Lemma fits_grow (m : Mesh) (pos rot : Vector3) (b : bool) :
  fits m ->
  fits (mkMesh pos rot (if b then grow (width m) else width m)
          (if b then grow (depth m) else depth m)).
Proof.
  intros (Hw0 & Hw & Hd0 & Hd). unfold fits. cbn [width depth].
  destruct b; [|tauto].
  pose proof (grow_ge (width m)). pose proof (grow_ge (depth m)).
  pose proof (grow_le _ Hw). pose proof (grow_le _ Hd).
  repeat split; first [assumption | lra].
Qed.

Lemma spawnNextBlock_done (s : Engine) (p : Mesh) :
  top (stack s) = Some p ->
  exists b,
    spawnNextBlock s = Done (setCurrent (Some b) s) /\
    width b = (if (comboCounter s >=? comboThreshold)%Z
               then grow (width p) else width p) /\
    depth b = (if (comboCounter s >=? comboThreshold)%Z
               then grow (depth p) else depth p).
Proof.
  intros Hp. unfold spawnNextBlock. rewrite Hp.
  eexists. split; [reflexivity|]. split; reflexivity.
Qed.

Lemma spawnNextBlock_wf (s : Engine) :
  Forall fits (stack s) -> Forall glowing (particles s) ->
  wellFormed (engineOf (spawnNextBlock (setCurrent None s))).
Proof.
  intros Hs Hp. unfold spawnNextBlock.
  destruct s as [st db pa fr run sc ax dir cur combo em]; cbn in *.
  destruct (top st) as [p|] eqn:Ht; cbn.
  - constructor; cbn; try assumption.
    + intros _ ->. discriminate.
    + intros c [= <-]. apply fits_grow.
      rewrite Forall_forall in Hs. apply Hs, top_In, Ht.
  - constructor; cbn; try assumption; congruence.
Qed.

(** ** The invariant of reachable engines *)

Lemma newEngine_wf : wellFormed newEngine.
Proof.
  constructor; cbn.
  - congruence.
  - repeat constructor; cbn; unfold defaultBlockSize; lra.
  - discriminate.
  - constructor.
Qed.

Lemma fits_baseBlock : fits baseBlock.
Proof. unfold fits, baseBlock, defaultBlockSize; cbn; lra. Qed.

Lemma startGame_wf (s : Engine) : wellFormed (engineOf (startGame s)).
Proof.
  destruct s as [st db pa fr run sc ax dir cur combo em].
  constructor; cbn.
  - intros _. discriminate.
  - repeat constructor; apply fits_baseBlock.
  - intros c [= <-]. apply fits_baseBlock.
  - constructor.
Qed.

Lemma reviveGame_wf (s : Engine) :
  wellFormed s -> wellFormed (engineOf (reviveGame s)).
Proof.
  intros [Ht Hs Hc Hp]. unfold reviveGame.
  destruct (isGameRunning s) eqn:Hr; [constructor; assumption|].
  apply (spawnNextBlock_wf (setRunning true (setDebris (removelast (debris s)) s)));
    assumption.
Qed.

Lemma dispose_wf (s : Engine) : wellFormed (dispose s).
Proof.
  constructor; cbn; try constructor; congruence.
Qed.

(** ** Placement *)

(** What a successful placement leaves behind. *)
Lemma handleSuccessfulPlacement_done (rnd : nat -> Q) (k : nat)
    (d nw nd : Q) (prevPos : Vector3) (s : Engine) (c : Mesh) :
  currentBlock s = Some c ->
  exists s' placed b,
    handleSuccessfulPlacement rnd k d nw nd prevPos s = Done s' /\
    stack s' = push (stack s) placed /\
    width placed = nw /\ depth placed = nd /\
    currentBlock s' = Some b /\
    width b = (if (comboCounter s >=? comboThreshold)%Z then grow nw else nw) /\
    depth b = (if (comboCounter s >=? comboThreshold)%Z then grow nd else nd) /\
    score s' = (score s + multiplier (comboCounter s))%Z /\
    emitted s' = push (emitted s)
                   (ScoreUpdate (score s + multiplier (comboCounter s))
                      (multiplier (comboCounter s))) /\
    comboCounter s' = comboCounter s /\
    isGameRunning s' = isGameRunning s /\
    particles s' = particles s /\
    axis s' = otherAxis (axis s).
Proof.
  intros Hc. unfold handleSuccessfulPlacement. rewrite Hc.
  set (cur := match axis s with
              | AxisX => setX _ _ | AxisZ => setZ _ _ end).
  assert (Hw : width cur = nw) by (subst cur; destruct (axis s); reflexivity).
  assert (Hd : depth cur = nd) by (subst cur; destruct (axis s); reflexivity).
  cbn [setCurrent axis debris stack score comboCounter emitted].
  set (s1 := match cutDebris _ _ _ _ _ _ _ with Some _ => _ | None => _ end).
  assert (H1 : stack s1 = stack s /\ score s1 = score s /\
               comboCounter s1 = comboCounter s /\ emitted s1 = emitted s /\
               isGameRunning s1 = isGameRunning s /\
               particles s1 = particles s /\ axis s1 = axis s).
  { subst s1. destruct (cutDebris _ _ _ _ _ _ _); cbn; tauto. }
  destruct H1 as (E1 & E2 & E3 & E4 & E5 & E6 & E7).
  unfold spawnNextBlock.
  cbn [setAxis setScore setStack emit stack comboCounter axis].
  rewrite top_push.
  eexists. exists cur. eexists.
  split; [reflexivity|].
  cbn. rewrite Hw, Hd, E1, E2, E3, E4, E5, E6, E7. repeat split; reflexivity.
Qed.

Lemma fits_measure (a : Axis) (tol : Q) (c p : Mesh) :
  fits c -> fits p -> 0 < overlap (measure a tol c p) ->
  0 < newWidth (measure a tol c p) <= defaultBlockSize /\
  0 < newDepth (measure a tol c p) <= defaultBlockSize.
Proof.
  intros (Hc1 & Hc2 & Hc3 & Hc4) (Hp1 & Hp2 & Hp3 & Hp4).
  unfold measure.
  destruct (Qltb _ tol); [cbn; tauto|].
  pose proof (Qabs_nonneg (offset a c p)).
  destruct a; cbn; intros Ho; repeat split; first [assumption | lra].
Qed.

Lemma glowing_newParticle (rnd : nat -> Q) (k i : nat) :
  unitDraws rnd -> glowing (newParticle rnd k i).
Proof.
  intros Hr. destruct (Hr (k + 4 * i + 3)%nat) as [H0 H1].
  unfold glowing, newParticle. cbn [life]. lra.
Qed.

Lemma spawnPerfectParticles_glowing (rnd : nat -> Q) (k : nat) (s : Engine) :
  unitDraws rnd -> Forall glowing (particles s) ->
  Forall glowing (particles (spawnPerfectParticles rnd k s)).
Proof.
  intros Hr Hp. unfold spawnPerfectParticles. cbn [particles setParticles].
  apply Forall_app. split; [exact Hp|].
  rewrite Forall_map. apply Forall_forall. intros i _.
  apply glowing_newParticle, Hr.
Qed.

Lemma placeBlock_wf (rnd : nat -> Q) (s : Engine) :
  unitDraws rnd -> wellFormed s -> wellFormed (engineOf (placeBlock rnd s)).
Proof.
  intros Hr Hwf. pose proof Hwf as [Ht Hs Hc Hp]. unfold placeBlock.
  destruct (isGameRunning s) eqn:Hrun; [|exact Hwf]. cbn [negb].
  destruct (currentBlock s) as [c|] eqn:Hcur; [|exact Hwf].
  destruct (top (stack s)) as [p|] eqn:Htop; [|exact Hwf].
  assert (Hfc : fits c) by (apply Hc; reflexivity).
  assert (Hfp : fits p) by (rewrite Forall_forall in Hs; apply Hs, top_In, Htop).
  set (pl := measure (axis s) (currentTolerance (score s)) c p).
  set (s1 := if perfect pl then spawnPerfectParticles _ _ _ else _).
  assert (H1 : stack s1 = stack s /\ Forall glowing (particles s1) /\
               exists c1, currentBlock s1 = Some c1 /\ fits c1).
  { subst s1. destruct (perfect pl).
    - split; [reflexivity|]. split.
      + apply spawnPerfectParticles_glowing; assumption.
      + eexists. split; [reflexivity|].
        destruct (axis s); exact Hfc.
    - split; [reflexivity|]. split; [exact Hp|].
      exists c. split; [cbn; exact Hcur | exact Hfc]. }
  destruct H1 as (E1 & Hp1 & c1 & Hc1 & Hfc1).
  destruct (Qltb 0 (overlap pl)) eqn:Hov.
  - apply Qltb_lt in Hov.
    destruct (fits_measure _ _ _ _ Hfc Hfp Hov) as [Hnw Hnd].
    destruct (handleSuccessfulPlacement_done rnd
                (if perfect pl then (4 * particleCount)%nat else 0%nat)
                (delta pl) (newWidth pl) (newDepth pl) (position p) s1 c1 Hc1)
      as (s' & placed & b & -> & Es & Ew & Ed & Eb & Ebw & Ebd & _ & _ & _ & _ & Epa & _).
    assert (Hfpl : fits placed) by (unfold fits; rewrite Ew, Ed; tauto).
    cbn [engineOf]. constructor.
    + intros _. rewrite Es. unfold push. destruct (stack s1); discriminate.
    + rewrite Es, E1. apply Forall_app. split; [exact Hs|].
      constructor; [exact Hfpl | constructor].
    + intros b' Hb'. rewrite Eb in Hb'. injection Hb' as <-.
      pose proof (fits_grow placed (position b) (rotation b)
                    (comboCounter s1 >=? comboThreshold)%Z Hfpl) as Hg.
      rewrite Ew, Ed in Hg. unfold fits in *. cbn [width depth] in Hg.
      rewrite Ebw, Ebd. exact Hg.
    + rewrite Epa. exact Hp1.
  - cbn [engineOf]. unfold handleGameOver.
    cbn [setRunning currentBlock]. rewrite Hc1.
    constructor; cbn.
    + intros _. rewrite E1. intros E. rewrite E in Htop. discriminate.
    + rewrite E1. exact Hs.
    + intros c' Hc'. rewrite Hc1 in Hc'. injection Hc' as <-. exact Hfc1.
    + exact Hp1.
Qed.

(** ** The frame loop *)

Lemma moveCurrent_done (s : Engine) :
  (currentBlock s <> None -> stack s <> []) ->
  exists s',
    moveCurrent s = Done s' /\
    stack s' = stack s /\ debris s' = debris s /\ particles s' = particles s /\
    isGameRunning s' = isGameRunning s /\ score s' = score s /\
    axis s' = axis s /\ comboCounter s' = comboCounter s /\
    emitted s' = emitted s /\ sameBlock (currentBlock s) (currentBlock s').
Proof.
  intros Ht. unfold moveCurrent.
  destruct (isGameRunning s) eqn:Hrun.
  2:{ exists s. rewrite Hrun. unfold sameBlock.
      destruct (currentBlock s); repeat split; reflexivity. }
  destruct (currentBlock s) as [c|] eqn:Hc.
  2:{ exists s. rewrite Hrun, Hc. repeat split; reflexivity. }
  destruct (top_some (stack s)) as [t Htop]; [apply Ht; discriminate|].
  cbn [setCurrent stack direction]. rewrite Htop.
  destruct (Qltb 13 _); eexists; (split; [reflexivity|]); cbn;
    rewrite Hrun; repeat split; destruct (axis s); reflexivity.
Qed.

Lemma animate_done (s : Engine) :
  (currentBlock s <> None -> stack s <> []) ->
  exists s',
    animate s = Done s' /\
    stack s' = stack s /\
    debris s' = filter (fun d => negb (fallenOut d)) (map stepDebris (debris s)) /\
    particles s' = filter (fun p => negb (faded p)) (map stepParticle (particles s)) /\
    isGameRunning s' = isGameRunning s /\ score s' = score s /\
    axis s' = axis s /\ comboCounter s' = comboCounter s /\
    emitted s' = emitted s /\ sameBlock (currentBlock s) (currentBlock s').
Proof.
  intros Ht.
  destruct (moveCurrent_done s Ht)
    as (s1 & E & E1 & E2 & E3 & E4 & E5 & E6 & E7 & E8 & E9).
  unfold animate. rewrite E. cbn [bind].
  eexists. split; [reflexivity|]. cbn.
  rewrite !reverseSweep_filter, E1, E2, E3, E4, E5, E6, E7, E8.
  repeat split. exact E9.
Qed.

Lemma glowing_step (p : Particle) :
  glowing p -> faded (stepParticle p) = false -> glowing (stepParticle p).
Proof.
  unfold glowing, faded, stepParticle. cbn [life]. intros [H0 H1] Hf.
  apply not_true_iff_false in Hf. rewrite Qle_bool_iff in Hf.
  apply Qnot_le_lt in Hf. lra.
Qed.

Lemma animate_wf (s : Engine) : wellFormed s -> wellFormed (engineOf (animate s)).
Proof.
  intros [Ht Hs Hc Hp].
  destruct (animate_done s Ht)
    as (s' & -> & E1 & _ & E3 & _ & _ & _ & _ & _ & E9).
  cbn [engineOf]. unfold sameBlock in E9. constructor.
  - rewrite E1. intros Hn. apply Ht.
    destruct (currentBlock s); [discriminate | now destruct (currentBlock s')].
  - rewrite E1. exact Hs.
  - intros c' Hc'. rewrite Hc' in E9.
    destruct (currentBlock s) as [c|]; [|contradiction].
    destruct E9 as [Ew Ed]. specialize (Hc c eq_refl).
    unfold fits in *. rewrite Ew, Ed. exact Hc.
  - rewrite E3. apply Forall_forall. intros q Hq.
    apply filter_In in Hq. destruct Hq as [Hin Hq].
    apply in_map_iff in Hin. destruct Hin as (p & <- & Hin).
    apply glowing_step.
    + rewrite Forall_forall in Hp. apply Hp, Hin.
    + apply negb_true_iff, Hq.
Qed.

Lemma reachable_wellFormed (s : Engine) : reachable s -> wellFormed s.
Proof.
  induction 1.
  - apply newEngine_wf.
  - apply startGame_wf.
  - apply reviveGame_wf; assumption.
  - apply placeBlock_wf; assumption.
  - apply animate_wf; assumption.
  - apply dispose_wf.
Qed.

(** ** Difficulty and combo model: properties *)

(** C2.  The score multiplier is a function of the combo counter alone: it is
    1 below the combo threshold and floor (c / threshold) + 1 from the
    threshold on (so 2 at c = 3 and 3 at c = 6, the multiplier m being the one
    with (m - 1) * threshold <= c < m * threshold).  A successful placement
    adds exactly this value to the score, reports it through onScoreUpdate,
    and leaves the combo counter as it was: computing the multiplier has no
    effect of its own. *)
Theorem C2_multiplier_of_combo (c : Z) :
  ((c < comboThreshold)%Z -> multiplier c = 1%Z) /\
  ((comboThreshold <= c)%Z ->
     multiplier c = (c / comboThreshold + 1)%Z /\
     ((multiplier c - 1) * comboThreshold <= c < multiplier c * comboThreshold)%Z) /\
  multiplier 3 = 2%Z /\ multiplier 6 = 3%Z /\
  (forall rnd k d nw nd prevPos s cur,
     comboCounter s = c -> currentBlock s = Some cur ->
     exists s',
       handleSuccessfulPlacement rnd k d nw nd prevPos s = Done s' /\
       score s' = (score s + multiplier c)%Z /\
       emitted s' = push (emitted s)
                      (ScoreUpdate (score s + multiplier c) (multiplier c)) /\
       comboCounter s' = c).
Proof.
  unfold multiplier, comboThreshold. repeat split.
  - intros H. destruct (Z.geb_spec c 3); [lia | reflexivity].
  - destruct (Z.geb_spec c 3); [reflexivity | lia].
  - destruct (Z.geb_spec c 3); [|lia].
    pose proof (Z.mul_div_le c 3 ltac:(lia)). lia.
  - destruct (Z.geb_spec c 3); [|lia].
    pose proof (Z.mul_succ_div_gt c 3 ltac:(lia)). lia.
  - intros rnd k d nw nd prevPos s cur Hcombo Hcur.
    destruct (handleSuccessfulPlacement_done rnd k d nw nd prevPos s cur Hcur)
      as (s' & _ & _ & E & _ & _ & _ & _ & _ & _ & Esc & Eem & Eco & _).
    exists s'. fold comboThreshold. fold (multiplier (comboCounter s)) in *.
    rewrite Hcombo in *. repeat split; assumption.
Qed.

Lemma C2_multiplier_of_combo_witness :
  multiplier 2 = 1%Z /\ multiplier 7 = 3%Z /\ (6 <= 7 < 9)%Z.
Proof.
  destruct (C2_multiplier_of_combo 2) as [Hlow _].
  destruct (C2_multiplier_of_combo 7) as (_ & Hhigh & _).
  split; [apply Hlow; reflexivity|].
  destruct Hhigh as [Hval Hband]; [discriminate|].
  split; [exact Hval|]. rewrite Hval in Hband. exact Hband.
Defined.

(** C3.  The alignment tolerance of placeBlock, as a function of the score s.
    On 0 <= s < difficultyRamp it is the linear interpolation
    initialErrorTolerance - s * (initialErrorTolerance - errorTolerance) /
    difficultyRamp, that is 0.6 - s * 0.4 / 15: it never increases, it
    strictly decreases with the score, it starts at initialErrorTolerance at
    s = 0, it stays above errorTolerance, and the line reaches errorTolerance
    exactly at s = difficultyRamp.  For every s >= difficultyRamp it is
    errorTolerance. *)
Theorem C3_tolerance_ramp :
  (forall s1 s2 : Z,
     (0 <= s1)%Z -> (s1 <= s2)%Z -> (s2 < difficultyRamp)%Z ->
     currentTolerance s2 <= currentTolerance s1) /\
  (forall s : Z,
     (0 <= s)%Z -> (s < difficultyRamp)%Z ->
     errorTolerance < currentTolerance s /\
     currentTolerance s <= initialErrorTolerance) /\
  currentTolerance 0 == initialErrorTolerance /\
  (forall s : Z, (difficultyRamp <= s)%Z -> currentTolerance s = errorTolerance) /\
  (forall s : Z,
     (s < difficultyRamp)%Z ->
     currentTolerance s
     == initialErrorTolerance
        - inject_Z s
          * ((initialErrorTolerance - errorTolerance) / inject_Z difficultyRamp)) /\
  (forall s : Z,
     (s < difficultyRamp)%Z -> currentTolerance s == 0.6 - inject_Z s * (2 # 75)) /\
  initialErrorTolerance
  - inject_Z difficultyRamp
    * ((initialErrorTolerance - errorTolerance) / inject_Z difficultyRamp)
  == errorTolerance /\
  (forall s1 s2 : Z,
     (0 <= s1)%Z -> (s1 < s2)%Z -> (s2 < difficultyRamp)%Z ->
     currentTolerance s2 < currentTolerance s1) /\
  (forall s : Z,
     (0 <= s)%Z -> (s + 1 < difficultyRamp)%Z ->
     currentTolerance (s + 1) == currentTolerance s - (2 # 75)).
Proof.
  unfold currentTolerance, difficultyRamp, initialErrorTolerance, errorTolerance.
  split; [|split; [|split; [|split; [|split; [|split; [|split; [|split]]]]]]].
  - intros s1 s2 H0 H12 H2.
    destruct (Z.ltb_spec s1 15); [|lia]. destruct (Z.ltb_spec s2 15); [|lia].
    cbv zeta. rewrite Zle_Qle in H12. unfold Qdiv.
    change (/ inject_Z 15) with (1 # 15).
    revert H12. generalize (inject_Z s1) (inject_Z s2). intros q1 q2 H12.
    lra.
  - intros s H0 H1.
    destruct (Z.ltb_spec s 15); [|lia]. cbv zeta. unfold Qdiv.
    change (/ inject_Z 15) with (1 # 15).
    assert (Hlo : 0 <= inject_Z s)
      by (change 0 with (inject_Z 0); now rewrite <- Zle_Qle).
    assert (Hhi : inject_Z s < 15)
      by (change 15 with (inject_Z 15); now rewrite <- Zlt_Qlt).
    revert Hlo Hhi. generalize (inject_Z s). intros q Hlo Hhi.
    split; lra.
  - reflexivity.
  - intros s Hs. destruct (Z.ltb_spec s 15); [lia | reflexivity].
  - intros s H1. destruct (Z.ltb_spec s 15); [|lia]. cbv zeta. unfold Qdiv.
    change (/ inject_Z 15) with (1 # 15).
    generalize (inject_Z s). intros q. lra.
  - intros s H1. destruct (Z.ltb_spec s 15); [|lia]. cbv zeta. unfold Qdiv.
    change (/ inject_Z 15) with (1 # 15).
    generalize (inject_Z s). intros q. lra.
  - reflexivity.
  - intros s1 s2 H0 H12 H2.
    destruct (Z.ltb_spec s1 15); [|lia]. destruct (Z.ltb_spec s2 15); [|lia].
    cbv zeta. rewrite Zlt_Qlt in H12. unfold Qdiv.
    change (/ inject_Z 15) with (1 # 15).
    revert H12. generalize (inject_Z s1) (inject_Z s2). intros q1 q2 H12.
    lra.
  - intros s H0 H1.
    destruct (Z.ltb_spec s 15); [|lia]. destruct (Z.ltb_spec (s + 1) 15); [|lia].
    cbv zeta. rewrite inject_Z_plus. unfold Qdiv.
    change (/ inject_Z 15) with (1 # 15). change (inject_Z 1) with 1.
    generalize (inject_Z s). intros q. lra.
Qed.

Lemma C3_tolerance_ramp_witness :
  currentTolerance 14 <= currentTolerance 3 /\
  errorTolerance < currentTolerance 14 /\
  currentTolerance 15 = errorTolerance /\
  currentTolerance 6 == 0.6 - inject_Z 6 * (2 # 75) /\
  currentTolerance 14 < currentTolerance 3 /\
  currentTolerance (6 + 1) == currentTolerance 6 - (2 # 75).
Proof.
  destruct C3_tolerance_ramp
    as (Hmono & Hband & _ & Hclamp & _ & Hline & _ & Hstrict & Hstep).
  split; [apply Hmono; unfold difficultyRamp; lia|].
  split; [apply (Hband 14%Z); unfold difficultyRamp; lia|].
  split; [apply Hclamp; unfold difficultyRamp; lia|].
  split; [apply Hline; unfold difficultyRamp; lia|].
  split; [apply Hstrict; unfold difficultyRamp; lia|].
  apply Hstep; unfold difficultyRamp; lia.
Defined.

(** ** Lifecycle *)

Lemma placeBlock_idle (rnd : nat -> Q) (s : Engine) :
  isGameRunning s = false \/ currentBlock s = None -> placeBlock rnd s = Done s.
Proof.
  unfold placeBlock. intros [H|H]; rewrite H; [reflexivity|].
  destruct (isGameRunning s); reflexivity.
Qed.

Lemma reviveGame_running (s : Engine) :
  isGameRunning s = true -> reviveGame s = Done s.
Proof. unfold reviveGame. intros ->. reflexivity. Qed.

Lemma startGame_done (s : Engine) :
  startGame s =
  Done (mkEngine [baseBlock] [] [] (frameRequested s) true 0%Z AxisX 1
          (Some firstBlock) 0%Z (push (emitted s) (ScoreUpdate 0 1))).
Proof. reflexivity. Qed.

(** C10.  startGame itself calls onScoreUpdate (0, 1), once, whatever the
    engine was doing: it never throws, the only callback it makes is that
    one, and it leaves a running game with score 0, combo 0 and a tower that
    holds the base block alone, so the call precedes every placement. *)
Theorem C10_startGame_reports_zero (s : Engine) :
  exists s',
    startGame s = Done s' /\
    emitted s' = push (emitted s) (ScoreUpdate 0 1) /\
    isGameRunning s' = true /\ score s' = 0%Z /\ comboCounter s' = 0%Z /\
    stack s' = [baseBlock].
Proof.
  rewrite startGame_done. eexists. split; [reflexivity|].
  cbn. repeat split; reflexivity.
Qed.

(** C7.  placeBlock on an engine that is not running, or that has no moving
    block, returns normally and leaves the engine exactly as it was;
    reviveGame on a running engine does the same.  After any reviveGame call
    the engine is running, so a second reviveGame in a row changes nothing
    (in particular no entity count). *)
Theorem C7_defensive_noops (rnd : nat -> Q) (s : Engine) :
  (isGameRunning s = false \/ currentBlock s = None ->
     placeBlock rnd s = Done s) /\
  (isGameRunning s = true -> reviveGame s = Done s) /\
  (forall s1, s1 = engineOf (reviveGame s) ->
     isGameRunning s1 = true /\ reviveGame s1 = Done s1 /\
     entityCount (engineOf (reviveGame s1)) = entityCount s1).
Proof.
  split; [|split].
  - apply placeBlock_idle.
  - apply reviveGame_running.
  - intros s1 ->.
    assert (Hrun : isGameRunning (engineOf (reviveGame s)) = true).
    { unfold reviveGame. destruct (isGameRunning s) eqn:E; [exact E|].
      unfold spawnNextBlock. cbn [stack setCurrent setRunning setDebris].
      destruct (top (stack s)); reflexivity. }
    split; [exact Hrun|].
    pose proof (reviveGame_running _ Hrun) as Hnoop.
    split; [exact Hnoop|]. now rewrite Hnoop.
Qed.

Lemma C7_defensive_noops_witness :
  placeBlock steadyDraws newEngine = Done newEngine /\
  reviveGame freshGame = Done freshGame /\
  reviveGame (engineOf (reviveGame newEngine)) = Done (engineOf (reviveGame newEngine)).
Proof.
  destruct (C7_defensive_noops steadyDraws newEngine) as (Hplace & _ & Htwice).
  destruct (C7_defensive_noops steadyDraws freshGame) as (_ & Hrevive & _).
  split; [exact (Hplace (or_introl eq_refl))|].
  split; [exact (Hrevive eq_refl)|].
  destruct (Htwice _ eq_refl) as (_ & Hnoop & _). exact Hnoop.
Defined.

(** C8 as stated fails: on a freshly built engine that has been disposed,
    startGame puts a base block and a moving block back, and reviveGame
    throws (there is no tower top to spawn on). *)
Lemma C8_counterexample :
  entityCount (dispose newEngine) = 0%nat /\
  thrown (startGame (dispose newEngine)) = false /\
  entityCount (engineOf (startGame (dispose newEngine))) = 2%nat /\
  thrown (reviveGame (dispose newEngine)) = true.
Proof. repeat split. Qed.

(** C8, amended.  dispose leaves no entity and no requested frame.  On the
    disposed engine placeBlock and a second dispose return normally and leave
    it as it is, and reviveGame does so too when the running flag was still
    set; startGame returns normally and starts a fresh game, with the base
    block and a moving block. *)
Theorem C8_after_dispose (rnd : nat -> Q) (s : Engine) :
  let d := dispose s in
  entityCount d = 0%nat /\ frameRequested d = false /\
  placeBlock rnd d = Done d /\
  dispose d = d /\
  (isGameRunning s = true -> reviveGame d = Done d) /\
  exists g b,
    startGame d = Done g /\ isGameRunning g = true /\
    stack g = [baseBlock] /\ currentBlock g = Some b /\
    debris g = [] /\ particles g = [].
Proof.
  cbv zeta. split; [reflexivity|]. split; [reflexivity|]. split; [|split; [|split]].
  - apply placeBlock_idle. right. reflexivity.
  - reflexivity.
  - intros Hrun. apply reviveGame_running. exact Hrun.
  - rewrite startGame_done. eexists. exists firstBlock.
    split; [reflexivity|]. cbn. repeat split; reflexivity.
Qed.

Lemma C8_after_dispose_witness :
  entityCount (dispose freshGame) = 0%nat /\
  placeBlock steadyDraws (dispose freshGame) = Done (dispose freshGame) /\
  reviveGame (dispose freshGame) = Done (dispose freshGame) /\
  exists g b,
    startGame (dispose freshGame) = Done g /\ isGameRunning g = true /\
    stack g = [baseBlock] /\ currentBlock g = Some b /\
    debris g = [] /\ particles g = [].
Proof.
  destruct (C8_after_dispose steadyDraws freshGame)
    as (Hnone & _ & Hplace & _ & Hrevive & Hstart).
  split; [exact Hnone|]. split; [exact Hplace|].
  split; [exact (Hrevive eq_refl) | exact Hstart].
Defined.

(** ** The two outcomes of a placement *)

Section Placing.

Variable rnd : nat -> Q.
Variable s : Engine.
Variables c p : Mesh.
Hypothesis Hrun : isGameRunning s = true.
Hypothesis Hcur : currentBlock s = Some c.
Hypothesis Htop : top (stack s) = Some p.

Let pl := measure (axis s) (currentTolerance (score s)) c p.
Let combo' := if perfect pl then (comboCounter s + 1)%Z else 0%Z.

Lemma placeBlock_success :
  0 < overlap pl ->
  exists s' placed b,
    placeBlock rnd s = Done s' /\
    isGameRunning s' = true /\
    stack s' = push (stack s) placed /\
    width placed = newWidth pl /\ depth placed = newDepth pl /\
    currentBlock s' = Some b /\
    width b = (if (combo' >=? comboThreshold)%Z
               then grow (newWidth pl) else newWidth pl) /\
    depth b = (if (combo' >=? comboThreshold)%Z
               then grow (newDepth pl) else newDepth pl) /\
    comboCounter s' = combo' /\
    score s' = (score s + multiplier combo')%Z /\
    emitted s' = push (emitted s)
                   (ScoreUpdate (score s + multiplier combo') (multiplier combo')) /\
    axis s' = otherAxis (axis s).
Proof.
  intros Hov. apply Qltb_lt in Hov.
  unfold placeBlock. rewrite Hrun, Hcur, Htop. cbn [negb]. fold pl.
  rewrite Hov.
  set (s1 := if perfect pl then spawnPerfectParticles _ _ _ else _).
  assert (H1 : stack s1 = stack s /\ score s1 = score s /\
               emitted s1 = emitted s /\ isGameRunning s1 = true /\
               axis s1 = axis s /\ comboCounter s1 = combo' /\
               exists c1, currentBlock s1 = Some c1).
  { subst s1 combo'. destruct (perfect pl); cbn; rewrite Hrun;
      repeat split; eexists; first [reflexivity | exact Hcur]. }
  destruct H1 as (E1 & E2 & E3 & E4 & E5 & E6 & c1 & Hc1).
  destruct (handleSuccessfulPlacement_done rnd
              (if perfect pl then (4 * particleCount)%nat else 0%nat)
              (delta pl) (newWidth pl) (newDepth pl) (position p) s1 c1 Hc1)
    as (s' & placed & b & -> & Es & Ew & Ed & Eb & Ebw & Ebd & Esc & Eem & Eco & Er & _ & Eax).
  exists s', placed, b.
  rewrite Er, Es, Eco, Esc, Eem, Eax, Ebw, Ebd, E1, E2, E3, E4, E5, E6.
  repeat split; assumption.
Qed.

Lemma placeBlock_miss :
  overlap pl <= 0 ->
  exists s' m,
    placeBlock rnd s = Done s' /\
    isGameRunning s' = false /\
    stack s' = stack s /\
    option_map mesh (top (debris s')) = Some m /\
    width m = width c /\ depth m = depth c /\
    (perfect pl = false -> m = c) /\
    comboCounter s' = combo' /\
    score s' = score s /\
    emitted s' = push (emitted s) (GameOver (score s)).
Proof.
  intros Hov. apply Qltb_ge in Hov.
  unfold placeBlock. rewrite Hrun, Hcur, Htop. cbn [negb]. fold pl.
  rewrite Hov. subst combo'.
  destruct (perfect pl); unfold handleGameOver;
    cbn [setRunning setCombo setCurrent spawnPerfectParticles setParticles
         currentBlock]; [|rewrite Hcur];
    eexists; eexists; (split; [reflexivity|]);
    cbn [emit setDebris isGameRunning stack debris comboCounter score emitted];
    rewrite top_push; cbn [option_map mesh].
  - split; [reflexivity|]. split; [reflexivity|]. split; [reflexivity|].
    split; [destruct (axis s); reflexivity|].
    split; [destruct (axis s); reflexivity|].
    split; [discriminate|]. repeat split; reflexivity.
  - split; [reflexivity|]. split; [reflexivity|]. split; [reflexivity|].
    repeat split; reflexivity.
Qed.

End Placing.

Lemma unitDraws_steady : unitDraws steadyDraws.
Proof. intros k. unfold steadyDraws. split; lra. Qed.

Lemma reachable_freshGame : reachable freshGame.
Proof. apply reach_start, reach_new. Qed.

Lemma reachable_animateN (n : nat) (s : Engine) :
  reachable s -> reachable (engineOf (animateN n s)).
Proof.
  revert s. induction n as [|n IH]; intros s Hs; [exact Hs|].
  cbn [animateN]. pose proof (reach_animate s Hs) as Ha.
  destruct (animate s) as [s1|s1]; cbn [bind engineOf] in *.
  - apply IH, Ha.
  - exact Ha.
Qed.

Lemma reachable_narrowTower : reachable narrowTower.
Proof.
  unfold narrowTower.
  apply (reachable_animateN 74), (reach_place _ _ unitDraws_steady).
  apply (reachable_animateN 77), (reach_place _ _ unitDraws_steady).
  apply (reachable_animateN 61), reachable_freshGame.
Qed.

(** C4 as stated fails on an engine the game reaches: in [narrowTower] the
    game is running and the offset is not smaller than the reference extent,
    yet the tap is a snap, the game goes on and onGameOver is not called. *)
Lemma C4_counterexample :
  reachable narrowTower /\
  let s := narrowTower in
  let o := placeBlock steadyDraws s in
  (fullMiss s, thrown o, isGameRunning (engineOf o), emitted (engineOf o))
  = (true, false, true,
     [ScoreUpdate 0 1; ScoreUpdate 1 1; ScoreUpdate 2 1; ScoreUpdate 3 1]).
Proof.
  split; [exact reachable_narrowTower|].
  vm_compute. reflexivity.
Qed.

(** C4, amended.  On a running engine with a moving block over a tower: if
    the computed overlap is <= 0, zero included, placeBlock ends the game and
    calls onGameOver once, with the score, which it leaves unchanged; if the
    overlap is > 0 the game goes on and the only callback is onScoreUpdate.
    When the placement is not a snap (|delta| >= current tolerance), an offset
    |delta| >= the reference extent along the active axis gives overlap <= 0,
    hence game over. *)
Theorem C4_miss_ends_game (rnd : nat -> Q) (s : Engine) (c p : Mesh) :
  isGameRunning s = true -> currentBlock s = Some c -> top (stack s) = Some p ->
  let a := axis s in
  let pl := measure a (currentTolerance (score s)) c p in
  (overlap pl <= 0 ->
     exists s',
       placeBlock rnd s = Done s' /\ isGameRunning s' = false /\
       score s' = score s /\
       emitted s' = push (emitted s) (GameOver (score s))) /\
  (0 < overlap pl ->
     exists s' m,
       placeBlock rnd s = Done s' /\ isGameRunning s' = true /\
       emitted s' = push (emitted s) (ScoreUpdate (score s') m)) /\
  (currentTolerance (score s) <= Qabs (offset a c p) ->
   extent a p <= Qabs (offset a c p) ->
   overlap pl <= 0).
Proof.
  intros Hrun Hcur Htop a pl. split; [|split].
  - intros Hov.
    destruct (placeBlock_miss rnd s c p Hrun Hcur Htop Hov)
      as (s' & m & E & Er & _ & _ & _ & _ & _ & _ & Esc & Eem).
    exists s'. repeat split; assumption.
  - intros Hov.
    destruct (placeBlock_success rnd s c p Hrun Hcur Htop Hov)
      as (s' & placed & b & E & Er & _ & _ & _ & _ & _ & _ & _ & Esc & Eem & _).
    exists s'. eexists. split; [exact E|]. split; [exact Er|].
    rewrite Eem, Esc. reflexivity.
  - intros Htol Hfar. subst pl. unfold measure.
    apply Qltb_ge in Htol. fold a. rewrite Htol.
    destruct a; cbn in *; lra.
Qed.

Lemma C4_miss_ends_game_witness :
  overlap (measure AxisX (currentTolerance 0) (setX (- 3) firstBlock) baseBlock)
  == 0 /\
  exists s',
    placeBlock steadyDraws edgeGame = Done s' /\ isGameRunning s' = false /\
    score s' = 0%Z /\
    emitted s' = [ScoreUpdate 0 1; GameOver 0].
Proof.
  split; [reflexivity|].
  destruct (C4_miss_ends_game steadyDraws edgeGame (setX (- 3) firstBlock)
              baseBlock eq_refl eq_refl eq_refl) as (Hmiss & _ & Hfar).
  apply Hmiss, Hfar; apply Qle_bool_iff; vm_compute; reflexivity.
Defined.

(** C5.  A placement that is not a snap (|delta| >= current tolerance) resets
    the combo counter to 0 and computes the overlap as the extent of the tower
    top along the active axis minus |delta|.  If that overlap is positive the
    block is laid on the tower with the overlap as its extent along the active
    axis and with the extent it had along the other axis; otherwise the block
    leaves as debris, untouched. *)
Theorem C5_trimmed_placement (rnd : nat -> Q) (s : Engine) (c p : Mesh) :
  isGameRunning s = true -> currentBlock s = Some c -> top (stack s) = Some p ->
  let a := axis s in
  let d := offset a c p in
  let pl := measure a (currentTolerance (score s)) c p in
  currentTolerance (score s) <= Qabs d ->
  perfect pl = false /\
  overlap pl = extent a p - Qabs d /\
  exists s',
    placeBlock rnd s = Done s' /\
    comboCounter s' = 0%Z /\
    (0 < overlap pl ->
       exists placed,
         top (stack s') = Some placed /\
         extent a placed = extent a p - Qabs d /\
         extent (otherAxis a) placed = extent (otherAxis a) c) /\
    (overlap pl <= 0 -> option_map mesh (top (debris s')) = Some c).
Proof.
  intros Hrun Hcur Htop a d pl Htol.
  assert (Hq : Qltb (Qabs d) (currentTolerance (score s)) = false)
    by (apply Qltb_ge; exact Htol).
  assert (Hp : perfect pl = false)
    by (subst pl; unfold measure; fold d; rewrite Hq; destruct a; reflexivity).
  assert (Hov : overlap pl = extent a p - Qabs d)
    by (subst pl; unfold measure; fold d; rewrite Hq; destruct a; reflexivity).
  assert (Hown : extent a (mkMesh (position c) (rotation c) (newWidth pl) (newDepth pl))
                 = extent a p - Qabs d /\
                 extent (otherAxis a) (mkMesh (position c) (rotation c) (newWidth pl) (newDepth pl))
                 = extent (otherAxis a) c)
    by (subst pl; unfold measure; fold d; rewrite Hq; destruct a; split; reflexivity).
  split; [exact Hp|]. split; [exact Hov|].
  destruct (Qlt_le_dec 0 (overlap pl)) as [Hpos|Hneg].
  - destruct (placeBlock_success rnd s c p Hrun Hcur Htop Hpos)
      as (s' & placed & b & E & _ & Es & Ew & Ed & _ & _ & _ & Eco & _).
    exists s'. split; [exact E|]. split.
    { rewrite Eco. fold a pl. rewrite Hp. reflexivity. }
    split.
    + intros _. exists placed. split; [rewrite Es; apply top_push|].
      fold a pl in Ew, Ed. destruct Hown as [H1 H2].
      destruct a; cbn [extent otherAxis width depth] in *;
        rewrite ?Ew, ?Ed; split; assumption.
    + intros Hle. exfalso. apply (Qlt_not_le _ _ Hpos Hle).
  - destruct (placeBlock_miss rnd s c p Hrun Hcur Htop Hneg)
      as (s' & m & E & _ & _ & Em & _ & _ & Emc & Eco & _).
    exists s'. split; [exact E|]. split.
    { rewrite Eco. fold a pl. rewrite Hp. reflexivity. }
    split.
    + intros Hpos. exfalso. apply (Qlt_not_le _ _ Hpos Hneg).
    + intros _. rewrite Em. f_equal. apply Emc. exact Hp.
Qed.

Lemma C5_trimmed_placement_witness :
  exists s',
    placeBlock steadyDraws shiftedGame = Done s' /\
    comboCounter s' = 0%Z /\
    exists placed,
      top (stack s') = Some placed /\
      width placed = 3 - Qabs (- 0.9 - 0) /\
      depth placed = 3.
Proof.
  destruct (C5_trimmed_placement steadyDraws shiftedGame
              (setX (- 0.9) firstBlock) baseBlock eq_refl eq_refl eq_refl)
    as (_ & _ & s' & E & Eco & Hpos & _).
  - apply Qle_bool_iff. vm_compute. reflexivity.
  - exists s'. split; [exact E|]. split; [exact Eco|].
    apply Hpos. apply Qltb_lt. vm_compute. reflexivity.
Defined.

(** ** Growth *)

Lemma reachable_offCentreGame : reachable offCentreGame.
Proof. apply (reachable_animateN 74), reachable_freshGame. Qed.

(** C6 as stated fails on an engine the game reaches: the block spawned at
    the start is 3 wide and 3 deep; tapped after 74 frames, 0.9 short of the
    base, it is trimmed to a width of 2.1, the game goes on, and the next
    block is spawned 2.1 wide and 3 deep: narrower than the previous spawn. *)
Lemma C6_counterexample :
  reachable offCentreGame /\
  reachable (engineOf (placeBlock steadyDraws offCentreGame)) /\
  let s := offCentreGame in
  let o := placeBlock steadyDraws s in
  (thrown o, isGameRunning (engineOf o), movingExtents s,
   movingExtents (engineOf o))
  = (false, true, Some (3, 3), Some (2.1, 3)).
Proof.
  split; [exact reachable_offCentreGame|].
  split; [apply (reach_place _ _ unitDraws_steady), reachable_offCentreGame|].
  vm_compute. reflexivity.
Qed.

(** C6, amended.  Block growth is monotone and bounded, measured against the
    block a spawn is made over.
    (1) spawnNextBlock never makes the next block smaller than the block it
    is spawned over, the tower top, which is the previously spawned block as
    its placement trimmed it: below the combo threshold the extents are
    copied; from the threshold on, an extent below the default size grows by
    growthFactor, capped at the default size, and an extent at the default
    size is kept.
    (2) When a placement is a snap, the block is laid untrimmed, so the next
    spawned block is at least as wide and as deep as the previous spawn.
    (3) On every engine the game can reach, no block of the tower and no
    moving block is wider or deeper than defaultBlockSize. *)
Theorem C6_growth_monotone_bounded :
  (forall s p,
     top (stack s) = Some p ->
     exists b,
       spawnNextBlock s = Done (setCurrent (Some b) s) /\
       width p <= width b /\ depth p <= depth b /\
       ((comboCounter s < comboThreshold)%Z ->
          width b = width p /\ depth b = depth p) /\
       ((comboThreshold <= comboCounter s)%Z ->
          width b = grow (width p) /\ depth b = grow (depth p)) /\
       (width p <= defaultBlockSize -> width b <= defaultBlockSize) /\
       (depth p <= defaultBlockSize -> depth b <= defaultBlockSize)) /\
  (forall e,
     (e < defaultBlockSize ->
        grow e == Qmin defaultBlockSize (e + growthFactor) /\ e < grow e) /\
     (defaultBlockSize <= e -> grow e = e)) /\
  (forall rnd s c,
     reachable s -> snaps s = true -> currentBlock s = Some c ->
     exists s' b,
       placeBlock rnd s = Done s' /\ currentBlock s' = Some b /\
       width c <= width b /\ depth c <= depth b) /\
  (forall s,
     reachable s ->
     Forall (fun m => width m <= defaultBlockSize /\ depth m <= defaultBlockSize)
       (stack s) /\
     (forall c, currentBlock s = Some c ->
        width c <= defaultBlockSize /\ depth c <= defaultBlockSize)).
Proof.
  split; [|split; [|split]].
  - intros s p Hp.
    destruct (spawnNextBlock_done s p Hp) as (b & E & Ew & Ed).
    exists b. split; [exact E|]. rewrite Ew, Ed.
    pose proof (grow_ge (width p)). pose proof (grow_ge (depth p)).
    destruct (Z.geb_spec (comboCounter s) comboThreshold) as [Hge|Hlt].
    + split; [assumption|]. split; [assumption|].
      split; [intros; exfalso; lia|]. split; [intros _; split; reflexivity|].
      split; apply grow_le.
    + split; [apply Qle_refl|]. split; [apply Qle_refl|].
      split; [intros _; split; reflexivity|]. split; [intros; exfalso; lia|].
      split; trivial.
  - intros e. unfold grow. split.
    + intros He. pose proof He as Hb. apply Qltb_lt in Hb. rewrite Hb.
      split; [reflexivity|].
      apply Q.min_glb_lt; [exact He|]. unfold growthFactor. lra.
    + intros He. apply Qltb_ge in He. rewrite He. reflexivity.
  - intros rnd s c Hreach Hsnap Hcur.
    pose proof (reachable_wellFormed s Hreach) as [_ _ Hfit _].
    destruct (Hfit c Hcur) as (Hw0 & _ & Hd0 & _).
    unfold snaps in Hsnap. rewrite Hcur in Hsnap.
    destruct (top (stack s)) as [p|] eqn:Htop; [|discriminate].
    apply andb_true_iff in Hsnap. destruct Hsnap as [Hrun Hq].
    assert (Hm : measure (axis s) (currentTolerance (score s)) c p
                 = mkPlacement true 0 (extent (axis s) c) (width c) (depth c))
      by (unfold measure; rewrite Hq; reflexivity).
    destruct (placeBlock_success rnd s c p Hrun Hcur Htop)
      as (s' & placed & b & E & _ & _ & _ & _ & Eb & Ew & Ed & _).
    { rewrite Hm. cbn [overlap]. destruct (axis s); assumption. }
    exists s', b. split; [exact E|]. split; [exact Eb|].
    rewrite Ew, Ed, Hm. cbn [perfect newWidth newDepth].
    pose proof (grow_ge (width c)). pose proof (grow_ge (depth c)).
    destruct (comboCounter s + 1 >=? comboThreshold)%Z; split;
      first [assumption | apply Qle_refl].
  - intros s Hreach.
    pose proof (reachable_wellFormed s Hreach) as [_ Hst Hfit _]. split.
    + eapply Forall_impl; [|exact Hst]. unfold fits. tauto.
    + intros c Hc. specialize (Hfit c Hc). unfold fits in Hfit. tauto.
Qed.

Lemma C6_growth_monotone_bounded_witness :
  (exists b,
     spawnNextBlock comboGame = Done (setCurrent (Some b) comboGame) /\
     width b = grow 2 /\ depth b = 3 /\ width b <= defaultBlockSize) /\
  grow 2 == 2.5 /\
  (exists s' b,
     placeBlock steadyDraws centredGame = Done s' /\ currentBlock s' = Some b /\
     width centredBlock <= width b /\ depth centredBlock <= depth b) /\
  width firstBlock <= defaultBlockSize.
Proof.
  destruct C6_growth_monotone_bounded as (Hspawn & Hgrow & Hsnap & Hbound).
  split; [|split; [|split]].
  - destruct (Hspawn comboGame (mkMesh (Vec 0 1 0) (Vec 0 0 0) 2 3) eq_refl)
      as (b & E & _ & _ & _ & Hbonus & Hcap & _).
    exists b. split; [exact E|].
    destruct Hbonus as [Ew Ed]; [discriminate|].
    split; [exact Ew|]. split; [exact Ed|].
    apply Hcap. discriminate.
  - destruct (Hgrow 2) as [Hbelow _].
    destruct Hbelow as [E _]; [reflexivity|].
    rewrite E. reflexivity.
  - apply (Hsnap steadyDraws centredGame centredBlock).
    + apply (reachable_animateN 80), reachable_freshGame.
    + vm_compute. reflexivity.
    + vm_compute. reflexivity.
  - destruct (Hbound freshGame reachable_freshGame) as [_ Hmoving].
    apply (Hmoving firstBlock eq_refl).
Defined.

(** ** Particles *)

Lemma reachable_burstGame : reachable burstGame.
Proof.
  apply (reach_place _ _ unitDraws_steady), (reachable_animateN 80),
    reachable_freshGame.
Qed.

(** C9 as stated fails on an engine the game reaches: right after a snap the
    twenty particles of the burst are live with a life above 1. *)
Lemma C9_counterexample :
  reachable burstGame /\
  length (particles burstGame) = 20%nat /\
  forallb (fun q => Qltb 1 (life q)) (particles burstGame) = true.
Proof.
  split; [exact reachable_burstGame|].
  vm_compute. split; reflexivity.
Qed.

(** C9, amended.  Every live particle has a life in (0, 1.5]: a particle is
    created with a life in [1, 1.5], namely 1 plus half a draw of
    Math.random, and each frame lowers the life of every particle by 0.05,
    sets its opacity to the new life, and removes exactly the particles whose
    new life is <= 0.  (The upper end 1.5 is closed: the rational 1 + r / 2
    stays below it for r < 1, the rounded sum of the source can reach it.) *)
Theorem C9_particle_life :
  (forall s, reachable s ->
     Forall (fun q => 0 < life q /\ life q <= 1.5) (particles s)) /\
  (forall rnd k i, unitDraws rnd ->
     1 <= life (newParticle rnd k i) /\ life (newParticle rnd k i) <= 1.5 /\
     life (newParticle rnd k i) == 1 + rnd (k + 4 * i + 3)%nat / 2) /\
  (forall s, reachable s ->
     exists s',
       animate s = Done s' /\
       particles s'
       = filter (fun q => Qltb 0 (life q)) (map stepParticle (particles s))) /\
  (forall q,
     life (stepParticle q) = life q - 0.05 /\
     opacity (stepParticle q) = life (stepParticle q)).
Proof.
  split; [|split; [|split]].
  - intros s Hs. pose proof (reachable_wellFormed s Hs) as [_ _ _ Hp].
    eapply Forall_impl; [|exact Hp].
    intros q [H0 H1]. split; [exact H0 | apply Qlt_le_weak, H1].
  - intros rnd k i Hr. destruct (Hr (k + 4 * i + 3)%nat) as [H0 H1].
    unfold newParticle. cbn [life]. unfold Qdiv. change (/ 2) with (1 # 2).
    split; [lra|]. split; lra.
  - intros s Hs. pose proof (reachable_wellFormed s Hs) as [Ht _ _ _].
    destruct (animate_done s Ht) as (s' & E & _ & _ & Ep & _).
    exists s'. split; [exact E | exact Ep].
  - intros q. split; reflexivity.
Qed.

Lemma C9_particle_life_witness :
  Forall (fun q => 0 < life q /\ life q <= 1.5) (particles burstGame) /\
  (1 <= life (newParticle steadyDraws 0 0) /\
   life (newParticle steadyDraws 0 0) <= 1.5 /\
   life (newParticle steadyDraws 0 0) == 1 + steadyDraws (0 + 4 * 0 + 3)%nat / 2) /\
  exists s',
    animate burstGame = Done s' /\
    particles s'
    = filter (fun q => Qltb 0 (life q)) (map stepParticle (particles burstGame)).
Proof.
  destruct C9_particle_life as (Hlive & Hnew & Hframe & _).
  split; [|split].
  - apply Hlive, reachable_burstGame.
  - apply Hnew, unitDraws_steady.
  - apply Hframe, reachable_burstGame.
Defined.

(** ** Runs of perfect placements *)

Lemma ready_animate (s s1 : Engine) :
  ready s -> animate s = Done s1 ->
  ready s1 /\ score s1 = score s /\ comboCounter s1 = comboCounter s /\
  emitted s1 = emitted s.
Proof.
  intros (Hrun & c & p & Hc & Hp & Hw & Hd) E.
  destruct (animate_done s) as (s' & E' & Es & _ & _ & Er & Esc & _ & Eco & Eem & Eb).
  { intros _ Hnil. rewrite Hnil in Hp. discriminate. }
  rewrite E in E'. injection E' as <-.
  repeat split; try assumption.
  - rewrite Er. exact Hrun.
  - rewrite Hc in Eb. unfold sameBlock in Eb.
    destruct (currentBlock s1) as [c1|]; [|contradiction].
    destruct Eb as [Ew Ed]. exists c1, p.
    rewrite Es, Ew, Ed. repeat split; assumption.
Qed.

Lemma ready_animateN (n : nat) (s s1 : Engine) :
  ready s -> animateN n s = Done s1 ->
  ready s1 /\ score s1 = score s /\ comboCounter s1 = comboCounter s /\
  emitted s1 = emitted s.
Proof.
  revert s. induction n as [|n IH]; intros s Hr E.
  - injection E as <-. split; [exact Hr|]. repeat split.
  - cbn [animateN] in E. destruct (animate s) as [s0|s0] eqn:Ea; [|discriminate].
    cbn [bind] in E.
    destruct (ready_animate s s0 Hr Ea) as (Hr0 & E1 & E2 & E3).
    destruct (IH s0 Hr0 E) as (Hr1 & F1 & F2 & F3).
    rewrite F1, F2, F3. split; [exact Hr1|]. repeat split; assumption.
Qed.

Lemma ready_snap (rnd : nat -> Q) (s s2 : Engine) :
  ready s -> snaps s = true -> placeBlock rnd s = Done s2 ->
  ready s2 /\
  comboCounter s2 = (comboCounter s + 1)%Z /\
  score s2 = (score s + multiplier (comboCounter s + 1))%Z /\
  emitted s2 = push (emitted s)
                 (ScoreUpdate (score s + multiplier (comboCounter s + 1))
                    (multiplier (comboCounter s + 1))).
Proof.
  intros (Hrun & c & p & Hc & Hp & Hw & Hd) Hsnap E.
  unfold snaps in Hsnap. rewrite Hc, Hp, Hrun in Hsnap. cbn [andb] in Hsnap.
  assert (Hm : measure (axis s) (currentTolerance (score s)) c p
               = mkPlacement true 0 (extent (axis s) c) (width c) (depth c))
    by (unfold measure; rewrite Hsnap; reflexivity).
  destruct (placeBlock_success rnd s c p Hrun Hc Hp)
    as (s' & placed & b & E' & Er & Es & _ & _ & Eb & Ew & Ed & Eco & Esc & Eem & _).
  { rewrite Hm. cbn [overlap]. destruct (axis s); assumption. }
  rewrite E in E'. injection E' as <-.
  rewrite Hm in *. cbn [perfect newWidth newDepth] in *.
  split; [|repeat split; assumption].
  split; [exact Er|]. exists b, placed.
  split; [exact Eb|]. split; [rewrite Es; apply top_push|].
  rewrite Ew, Ed.
  pose proof (grow_ge (width c)). pose proof (grow_ge (depth c)).
  destruct (comboCounter s + 1 >=? comboThreshold)%Z; split; lra.
Qed.

Lemma perfectPlays_tally (plays : list (nat * (nat -> Q))) (s g : Engine) :
  ready s -> perfectPlays plays s = Some g ->
  ready g /\
  comboCounter g = (comboCounter s + Z.of_nat (length plays))%Z /\
  score g = scoreAfter (length plays) (score s) (comboCounter s) /\
  emitted g = emitted s ++ reports (length plays) (score s) (comboCounter s).
Proof.
  revert s. induction plays as [|[n rnd] rest IH]; intros s Hr E.
  - injection E as <-. cbn. rewrite app_nil_r, Z.add_0_r.
    split; [exact Hr|]. repeat split.
  - cbn [perfectPlays] in E.
    destruct (animateN n s) as [s1|] eqn:E1; [|discriminate].
    destruct (snaps s1) eqn:Hsnap; [|discriminate].
    destruct (placeBlock rnd s1) as [s2|] eqn:E2; [|discriminate].
    destruct (ready_animateN n s s1 Hr E1) as (Hr1 & A1 & A2 & A3).
    destruct (ready_snap rnd s1 s2 Hr1 Hsnap E2) as (Hr2 & B1 & B2 & B3).
    destruct (IH s2 Hr2 E) as (Hrg & C1 & C2 & C3).
    rewrite A1, A2, A3 in *.
    split; [exact Hrg|]. cbn [length scoreAfter reports].
    rewrite C1, C2, C3, B1, B2, B3. unfold push. rewrite <- app_assoc.
    repeat split. lia.
Qed.

Lemma ready_startGame (s : Engine) : ready (engineOf (startGame s)).
Proof.
  rewrite startGame_done. split; [reflexivity|].
  exists firstBlock, baseBlock. cbn. unfold defaultBlockSize.
  repeat split; reflexivity.
Qed.

(** C1 as stated fails: start a game on a fresh engine and tap five times,
    each tap a snap; the score is then 8, not 5. *)
Lemma C1_counterexample :
  option_map score (perfectPlays fiveTaps freshGame) = Some 8%Z /\
  option_map score (perfectPlays fiveTaps freshGame) <> Some 5%Z.
Proof.
  assert (E : option_map score (perfectPlays fiveTaps freshGame) = Some 8%Z)
    by (vm_compute; reflexivity).
  split; [exact E|]. rewrite E. discriminate.
Qed.

(** C1, amended.  Starting a game and then making 5 consecutive perfect
    placements leaves score = 8 and comboCounter = 5: onScoreUpdate reports
    (0, 1) at the start, then (1, 1), (2, 1), (4, 2), (6, 2), (8, 2), so the
    multiplier is 2 on the 3rd, 4th and 5th placements and each placement
    adds its multiplier to the score. *)
Theorem C1_five_perfect_placements
    (s0 : Engine) (plays : list (nat * (nat -> Q))) (g : Engine) :
  length plays = 5%nat ->
  perfectPlays plays (engineOf (startGame s0)) = Some g ->
  score g = 8%Z /\ comboCounter g = 5%Z /\
  emitted g
  = emitted s0 ++
    [ScoreUpdate 0 1; ScoreUpdate 1 1; ScoreUpdate 2 1;
     ScoreUpdate 4 2; ScoreUpdate 6 2; ScoreUpdate 8 2].
Proof.
  intros Hlen E.
  destruct (perfectPlays_tally plays _ g (ready_startGame s0) E)
    as (_ & Eco & Esc & Eem).
  rewrite Hlen in *. rewrite startGame_done in *. cbn [engineOf score comboCounter emitted] in *.
  split; [exact Esc|]. split; [exact Eco|].
  rewrite Eem. unfold push. rewrite <- app_assoc. reflexivity.
Qed.

Lemma C1_five_perfect_placements_witness :
  score afterFiveTaps = 8%Z /\ comboCounter afterFiveTaps = 5%Z /\
  emitted afterFiveTaps
  = emitted newEngine ++
    [ScoreUpdate 0 1; ScoreUpdate 1 1; ScoreUpdate 2 1;
     ScoreUpdate 4 2; ScoreUpdate 6 2; ScoreUpdate 8 2].
Proof.
  apply (C1_five_perfect_placements newEngine fiveTaps afterFiveTaps).
  - reflexivity.
  - vm_compute. reflexivity.
Defined.
(** ** Engine operations in closed form *)

(** Field assignments, read back field by field. *)
Ltac setters :=
  unfold setFrameRequested, setParticles, setDebris, setDirection, setCurrent,
    setStack, setRunning, setScore, setAxis, setCombo, emit;
  cbn [stack debris particles frameRequested isGameRunning score axis direction
       currentBlock comboCounter emitted].

Lemma spawnNextBlock_eq (s : Engine) (p : Mesh) :
  top (stack s) = Some p ->
  spawnNextBlock s
  = Done (setCurrent (Some (spawned (axis s) (comboCounter s) p)) s).
Proof. intros Hp. unfold spawnNextBlock. rewrite Hp. reflexivity. Qed.

Lemma handleSuccessfulPlacement_eq (rnd : nat -> Q) (k : nat)
    (d nw nd : Q) (prevPos : Vector3) (s : Engine) (c : Mesh) :
  currentBlock s = Some c ->
  let cur := landed (axis s) d nw nd prevPos c in
  let m := multiplier (comboCounter s) in
  handleSuccessfulPlacement rnd k d nw nd prevPos s
  = Done (mkEngine (push (stack s) cur)
            match cutDebris rnd k (axis s) d nw nd cur with
            | Some piece => push (debris s) piece
            | None => debris s
            end
            (particles s) (frameRequested s) (isGameRunning s)
            (score s + m)%Z (otherAxis (axis s)) (direction s)
            (Some (spawned (otherAxis (axis s)) (comboCounter s) cur))
            (comboCounter s)
            (push (emitted s) (ScoreUpdate (score s + m) m))).
Proof.
  intros Hc cur m. unfold handleSuccessfulPlacement. rewrite Hc.
  fold (landed (axis s) d nw nd prevPos c). fold cur.
  cbn [setCurrent axis debris].
  unfold spawnNextBlock.
  destruct (cutDebris rnd k (axis s) d nw nd cur);
    cbn [setAxis setScore setStack setDebris emit stack comboCounter axis score
         debris particles frameRequested isGameRunning direction currentBlock
         emitted setCurrent];
    rewrite top_push; reflexivity.
Qed.

Section PlacingClosed.

Variable rnd : nat -> Q.
Variable s : Engine.
Variables c p : Mesh.
Hypothesis Hrun : isGameRunning s = true.
Hypothesis Hcur : currentBlock s = Some c.
Hypothesis Htop : top (stack s) = Some p.

Lemma placeBlock_snap_eq :
  Qabs (offset (axis s) c p) < currentTolerance (score s) ->
  0 < extent (axis s) c ->
  placeBlock rnd s = Done (afterSnap rnd s c p).
Proof.
  intros Hs Hpos. apply Qltb_lt in Hs, Hpos.
  unfold placeBlock, measure. rewrite Hrun, Hcur, Htop, Hs.
  cbn [negb perfect overlap delta newWidth newDepth]. rewrite Hpos.
  fold (snapped (axis s) p c).
  rewrite (handleSuccessfulPlacement_eq _ _ _ _ _ _ _ (snapped (axis s) p c))
    by reflexivity.
  cbv zeta. unfold afterSnap, cutDebris.
  cbn [spawnPerfectParticles setParticles setCombo setCurrent axis stack debris
       particles frameRequested isGameRunning score direction comboCounter
       emitted].
  change (Qeq_bool 0 0) with true. cbv iota. rewrite Hrun. reflexivity.
Qed.

Lemma placeBlock_trim_eq :
  currentTolerance (score s) <= Qabs (offset (axis s) c p) ->
  0 < extent (axis s) p - Qabs (offset (axis s) c p) ->
  placeBlock rnd s = Done (afterTrim rnd s c p).
Proof.
  intros Hs Hpos. apply Qltb_ge in Hs. apply Qltb_lt in Hpos.
  unfold placeBlock, measure. rewrite Hrun, Hcur, Htop, Hs. cbn [negb].
  unfold afterTrim.
  destruct (axis s) eqn:Ha; cbn [perfect overlap delta newWidth newDepth extent] in *;
    rewrite Hpos;
    rewrite (handleSuccessfulPlacement_eq _ _ _ _ _ _ _ c) by exact Hcur;
    cbv zeta;
    cbn [setCombo axis stack debris particles frameRequested isGameRunning
         score direction comboCounter emitted];
    rewrite Ha, Hrun; reflexivity.
Qed.

Lemma placeBlock_miss_eq :
  currentTolerance (score s) <= Qabs (offset (axis s) c p) ->
  extent (axis s) p - Qabs (offset (axis s) c p) <= 0 ->
  placeBlock rnd s = Done (afterMiss rnd s c).
Proof.
  intros Hs Hneg. apply Qltb_ge in Hs, Hneg.
  unfold placeBlock, measure. rewrite Hrun, Hcur, Htop, Hs. cbn [negb].
  unfold afterMiss, handleGameOver.
  destruct (axis s) eqn:Ha; cbn [perfect overlap extent] in *; rewrite Hneg;
    cbn [setCombo setRunning currentBlock axis]; rewrite Hcur;
    unfold emit, setDebris;
    cbn [setCombo setRunning stack debris particles frameRequested
         isGameRunning score axis direction currentBlock comboCounter emitted];
    rewrite Ha, Hcur; reflexivity.
Qed.

(** The three ways a tap on a running game with a block of positive extents
    can go. *)
Lemma placeBlock_cases :
  0 < extent (axis s) c ->
  let d := offset (axis s) c p in
  (Qabs d < currentTolerance (score s) /\
   placeBlock rnd s = Done (afterSnap rnd s c p)) \/
  (currentTolerance (score s) <= Qabs d /\ 0 < extent (axis s) p - Qabs d /\
   placeBlock rnd s = Done (afterTrim rnd s c p)) \/
  (currentTolerance (score s) <= Qabs d /\ extent (axis s) p - Qabs d <= 0 /\
   placeBlock rnd s = Done (afterMiss rnd s c)).
Proof.
  intros Hpos d.
  destruct (Qlt_le_dec (Qabs d) (currentTolerance (score s))) as [Hs|Hs].
  - left. split; [exact Hs|]. apply placeBlock_snap_eq; assumption.
  - right. destruct (Qlt_le_dec 0 (extent (axis s) p - Qabs d)) as [Ho|Ho].
    + left. repeat split; try assumption. apply placeBlock_trim_eq; assumption.
    + right. repeat split; try assumption. apply placeBlock_miss_eq; assumption.
Qed.

End PlacingClosed.

Lemma reviveGame_eq (s : Engine) (p : Mesh) :
  isGameRunning s = false -> top (stack s) = Some p ->
  reviveGame s = Done (afterRevive s p).
Proof.
  intros Hrun Hp. unfold reviveGame. rewrite Hrun.
  rewrite (spawnNextBlock_eq _ p) by exact Hp. reflexivity.
Qed.

Lemma reviveGame_empty (s : Engine) :
  isGameRunning s = false -> stack s = [] ->
  reviveGame s
  = Throw (setCurrent None (setRunning true (setDebris (removelast (debris s)) s))).
Proof.
  intros Hrun Hs. unfold reviveGame, spawnNextBlock. rewrite Hrun.
  cbn [stack setCurrent setRunning setDebris]. rewrite Hs. reflexivity.
Qed.

Lemma animate_moving_eq (s : Engine) (c p : Mesh) :
  isGameRunning s = true -> currentBlock s = Some c -> top (stack s) = Some p ->
  animate s = Done (afterFrame s c p).
Proof.
  intros Hrun Hc Hp. unfold animate, moveCurrent, afterFrame.
  rewrite Hrun, Hc. cbn [setCurrent stack direction]. rewrite Hp.
  fold (actualSpeed (score s)). unfold offset.
  destruct (axis s) eqn:Ha; cbn [coord moved setX setZ position];
    destruct (Qltb 13 _); cbn [bind]; setters; rewrite ?Hrun, ?Ha; reflexivity.
Qed.

Lemma animate_idle_eq (s : Engine) :
  isGameRunning s = false \/ currentBlock s = None ->
  animate s = Done (afterIdleFrame s).
Proof.
  intros H. unfold animate, moveCurrent, afterIdleFrame.
  destruct H as [H|H].
  - destruct (isGameRunning s) eqn:Hr; [discriminate|].
    cbn [bind]. setters. rewrite Hr. reflexivity.
  - rewrite H. destruct (isGameRunning s) eqn:Hr;
      cbn [bind]; setters; rewrite Hr, H; reflexivity.
Qed.

(** ** Induction over reachable engines, one case per way an operation can go *)

Lemma reachable_closed_ind (P : Engine -> Prop) :
  P newEngine ->
  (forall s, reachable s -> P s ->
     P (mkEngine [baseBlock] [] [] (frameRequested s) true 0%Z AxisX 1
          (Some firstBlock) 0%Z (push (emitted s) (ScoreUpdate 0 1)))) ->
  (forall s p, reachable s -> P s ->
     isGameRunning s = false -> top (stack s) = Some p ->
     P (afterRevive s p)) ->
  (forall s, reachable s -> P s ->
     isGameRunning s = false -> stack s = [] ->
     P (setCurrent None (setRunning true (setDebris (removelast (debris s)) s)))) ->
  (forall rnd s c p, unitDraws rnd -> reachable s -> P s ->
     isGameRunning s = true -> currentBlock s = Some c -> top (stack s) = Some p ->
     Qabs (offset (axis s) c p) < currentTolerance (score s) ->
     P (afterSnap rnd s c p)) ->
  (forall rnd s c p, unitDraws rnd -> reachable s -> P s ->
     isGameRunning s = true -> currentBlock s = Some c -> top (stack s) = Some p ->
     currentTolerance (score s) <= Qabs (offset (axis s) c p) ->
     0 < extent (axis s) p - Qabs (offset (axis s) c p) ->
     P (afterTrim rnd s c p)) ->
  (forall rnd s c p, unitDraws rnd -> reachable s -> P s ->
     isGameRunning s = true -> currentBlock s = Some c -> top (stack s) = Some p ->
     currentTolerance (score s) <= Qabs (offset (axis s) c p) ->
     extent (axis s) p - Qabs (offset (axis s) c p) <= 0 ->
     P (afterMiss rnd s c)) ->
  (forall s c p, reachable s -> P s ->
     isGameRunning s = true -> currentBlock s = Some c -> top (stack s) = Some p ->
     P (afterFrame s c p)) ->
  (forall s, reachable s -> P s ->
     isGameRunning s = false \/ currentBlock s = None ->
     P (afterIdleFrame s)) ->
  (forall s, reachable s -> P s -> P (dispose s)) ->
  forall s, reachable s -> P s.
Proof.
  intros Hnew Hstart Hrev Hrev0 Hsnap Htrim Hmiss Hmove Hidle Hdisp.
  induction 1 as [|s Hs IH|s Hs IH|rnd s Hr Hs IH|s Hs IH|s Hs IH].
  - exact Hnew.
  - rewrite startGame_done. apply Hstart; assumption.
  - destruct (isGameRunning s) eqn:Hrun.
    + rewrite (reviveGame_running s Hrun). exact IH.
    + destruct (top (stack s)) as [p|] eqn:Htop.
      * rewrite (reviveGame_eq s p Hrun Htop). apply Hrev; assumption.
      * assert (Hnil : stack s = [])
          by (destruct (stack s) as [|m l] eqn:E; [reflexivity|];
              destruct (top_some (m :: l)) as [x Hx]; [discriminate|];
              rewrite Hx in Htop; discriminate).
        rewrite (reviveGame_empty s Hrun Hnil). apply Hrev0; assumption.
  - pose proof (reachable_wellFormed s Hs) as [Ht _ Hfit _].
    destruct (isGameRunning s) eqn:Hrun;
      [|rewrite placeBlock_idle by (left; exact Hrun); exact IH].
    destruct (currentBlock s) as [c|] eqn:Hcur;
      [|rewrite placeBlock_idle by (right; exact Hcur); exact IH].
    destruct (top_some (stack s)) as [p Htop]; [apply Ht; discriminate|].
    assert (Hpos : 0 < extent (axis s) c)
      by (destruct (Hfit c eq_refl) as (? & _ & ? & _);
          destruct (axis s); assumption).
    destruct (placeBlock_cases rnd s c p Hrun Hcur Htop Hpos)
      as [(H1 & E)|[(H1 & H2 & E)|(H1 & H2 & E)]]; rewrite E; cbn [engineOf].
    + apply (Hsnap rnd s c p); assumption.
    + apply (Htrim rnd s c p); assumption.
    + apply (Hmiss rnd s c p); assumption.
  - pose proof (reachable_wellFormed s Hs) as [Ht _ _ _].
    destruct (isGameRunning s) eqn:Hrun;
      [|rewrite animate_idle_eq by (left; exact Hrun);
        apply Hidle; [assumption..|left; exact Hrun]].
    destruct (currentBlock s) as [c|] eqn:Hcur;
      [|rewrite animate_idle_eq by (right; exact Hcur);
        apply Hidle; [assumption..|right; exact Hcur]].
    destruct (top_some (stack s)) as [p Htop]; [apply Ht; discriminate|].
    rewrite (animate_moving_eq s c p Hrun Hcur Htop). apply Hmove; assumption.
  - apply Hdisp; assumption.
Qed.

(** ** Counters *)

Lemma multiplier_pos (c : Z) : (1 <= multiplier c)%Z.
Proof.
  unfold multiplier, comboThreshold.
  destruct (Z.geb_spec c 3); [|lia].
  pose proof (Z.div_le_lower_bound c 3 1 ltac:(lia) ltac:(lia)). lia.
Qed.

Lemma length_push {A : Type} (l : list A) (x : A) :
  length (push l x) = S (length l).
Proof. unfold push. rewrite length_app. cbn. lia. Qed.

Lemma reachable_tallied (s : Engine) : reachable s -> tallied s.
Proof.
  apply reachable_closed_ind; unfold tallied; clear s.
  - cbn. lia.
  - intros; cbn. lia.
  - intros s p _ H _ _. exact H.
  - intros s _ H _ _. exact H.
  - intros rnd s c p _ _ (H1 & H2 & H3) _ _ _ _.
    cbn [afterSnap score comboCounter stack]. rewrite length_push.
    pose proof (multiplier_pos (comboCounter s + 1)). lia.
  - intros rnd s c p _ _ (H1 & H2 & H3) _ _ _ _ _.
    cbn [afterTrim score comboCounter stack]. rewrite length_push. lia.
  - intros rnd s c p _ _ (H1 & H2 & H3) _ _ _ _ _.
    cbn [afterMiss score comboCounter stack]. lia.
  - intros s c p _ H _ _ _. exact H.
  - intros s _ H _. exact H.
  - intros s _ (H1 & H2 & H3). cbn. lia.
Qed.

(** ** The tower is a column *)

Lemma top_nth {A : Type} (l : list A) (x : A) :
  top l = Some x -> nth_error l (length l - 1) = Some x /\ (1 <= length l)%nat.
Proof.
  induction l as [|a l IH]; [discriminate|].
  destruct l as [|b l].
  - intros [= ->]. split; [reflexivity | cbn; lia].
  - intros H. destruct (IH H) as [E L]. split; [|cbn; lia].
    replace (length (a :: b :: l) - 1)%nat with (S (length (b :: l) - 1))
      by (cbn in *; lia).
    exact E.
Qed.

Lemma inject_succ (n : nat) :
  inject_Z (Z.of_nat (S n)) == inject_Z (Z.of_nat n) + 1.
Proof. rewrite Nat2Z.inj_succ. unfold Z.succ. rewrite inject_Z_plus. reflexivity. Qed.

Lemma nth_error_push {A : Type} (l : list A) (x y : A) (i : nat) :
  nth_error (push l x) i = Some y ->
  nth_error l i = Some y \/ (i = length l /\ y = x).
Proof.
  unfold push. intros H.
  destruct (Nat.lt_ge_cases i (length l)) as [Hlt|Hge].
  - left. rewrite nth_error_app1 in H by exact Hlt. exact H.
  - right. rewrite nth_error_app2 in H by exact Hge.
    destruct (i - length l)%nat as [|k] eqn:E.
    + cbn in H. injection H as <-. split; [lia | reflexivity].
    + cbn in H. destruct k; discriminate.
Qed.

Lemma vy_spawned (a : Axis) (combo : Z) (p : Mesh) :
  vy (position (spawned a combo p)) = vy (position p) + blockHeight.
Proof. destruct a; reflexivity. Qed.

Lemma vy_landed (a : Axis) (d nw nd : Q) (pp : Vector3) (c : Mesh) :
  vy (position (landed a d nw nd pp c)) = vy (position c).
Proof. destruct a; reflexivity. Qed.

Lemma vy_snapped (a : Axis) (p c : Mesh) :
  vy (position (snapped a p c)) = vy (position c).
Proof. destruct a; reflexivity. Qed.

Lemma vy_moved (a : Axis) (step : Q) (c : Mesh) :
  vy (position (moved a step c)) = vy (position c).
Proof. destruct a; reflexivity. Qed.

(** Laying the moving block on the tower and spawning the next one over it
    keeps the column. *)
Lemma stacked_grow (l : list Mesh) (c cur next : Mesh) :
  (forall i m, nth_error l i = Some m -> vy (position m) == inject_Z (Z.of_nat i)) ->
  vy (position c) == inject_Z (Z.of_nat (length l)) ->
  vy (position cur) = vy (position c) ->
  vy (position next) = vy (position cur) + blockHeight ->
  (forall i m, nth_error (push l cur) i = Some m ->
     vy (position m) == inject_Z (Z.of_nat i)) /\
  vy (position next) == inject_Z (Z.of_nat (length (push l cur))).
Proof.
  intros Hl Hc Hcur Hnext. split.
  - intros i m H. destruct (nth_error_push l cur m i H) as [H1|[-> ->]].
    + apply Hl, H1.
    + rewrite Hcur. exact Hc.
  - rewrite length_push, inject_succ, Hnext, Hcur, Hc. reflexivity.
Qed.

Lemma reachable_stacked (s : Engine) : reachable s -> stacked s.
Proof.
  apply reachable_closed_ind; unfold stacked; clear s.
  - split; [|discriminate]. intros [|[|i]] m; cbn; [|discriminate..].
    intros [= <-]. reflexivity.
  - intros s _ _. cbn [stack currentBlock]. split.
    + intros [|[|i]] m; cbn; [|discriminate..]. intros [= <-]. reflexivity.
    + intros c [= <-]. reflexivity.
  - intros s p _ [Hl Hc] _ Htop. cbn [afterRevive stack currentBlock].
    split; [exact Hl|]. intros c [= <-]. rewrite vy_spawned.
    destruct (top_nth _ _ Htop) as [E L]. rewrite (Hl _ _ E).
    replace (length (stack s)) with (S (length (stack s) - 1)) at 2 by lia.
    rewrite inject_succ. reflexivity.
  - intros s _ [Hl Hc] _ _. cbn. split; [exact Hl | discriminate].
  - intros rnd s c p _ _ [Hl Hc] _ Hcur _ _.
    cbn [afterSnap stack currentBlock].
    destruct (stacked_grow (stack s) c
                (landed (axis s) 0 (width c) (depth c) (position p)
                   (snapped (axis s) p c))
                (spawned (otherAxis (axis s)) (comboCounter s + 1)
                   (landed (axis s) 0 (width c) (depth c) (position p)
                      (snapped (axis s) p c)))
                Hl (Hc c Hcur)) as [G1 G2].
    + rewrite vy_landed, vy_snapped. reflexivity.
    + apply vy_spawned.
    + split; [exact G1|]. intros c' [= <-]. exact G2.
  - intros rnd s c p _ _ [Hl Hc] _ Hcur _ _ _.
    cbn [afterTrim stack currentBlock]. cbv zeta.
    set (cur := landed _ _ _ _ _ _).
    destruct (stacked_grow (stack s) c cur (spawned (otherAxis (axis s)) 0 cur)
                Hl (Hc c Hcur)) as [G1 G2].
    + apply vy_landed.
    + apply vy_spawned.
    + split; [exact G1|]. intros c' [= <-]. exact G2.
  - intros rnd s c p _ _ [Hl Hc] _ Hcur _ _ _.
    cbn [afterMiss stack currentBlock]. split; [exact Hl|].
    intros c' [= <-]. apply Hc, Hcur.
  - intros s c p _ [Hl Hc] _ Hcur _. cbn [afterFrame stack currentBlock].
    split; [exact Hl|]. intros c' [= <-]. rewrite vy_moved. apply Hc, Hcur.
  - intros s _ H _. exact H.
  - intros s _ _. cbn. split; [|discriminate]. intros [|i] m; discriminate.
Qed.

(** ** Debris only falls *)

Lemma Forall_removelast {A : Type} (P : A -> Prop) (l : list A) :
  Forall P l -> Forall P (removelast l).
Proof.
  induction 1 as [|a l Ha Hl IH]; [constructor|].
  cbn. destruct l; [constructor|]. constructor; assumption.
Qed.

Lemma Forall_push {A : Type} (P : A -> Prop) (l : list A) (x : A) :
  Forall P l -> P x -> Forall P (push l x).
Proof. intros Hl Hx. apply Forall_app. split; [exact Hl | repeat constructor; exact Hx]. Qed.

Lemma cutDebris_sinking (rnd : nat -> Q) (k : nat) (a : Axis) (d nw nd : Q)
    (cur : Mesh) (piece : Debris) :
  unitDraws rnd -> cutDebris rnd k a d nw nd cur = Some piece -> sinking piece.
Proof.
  intros Hr. unfold cutDebris.
  destruct (Qeq_bool d 0); [discriminate|].
  destruct (_ && _); [|discriminate].
  intros [= <-]. unfold sinking. cbn [velocity vy].
  destruct (Hr (k + 1)%nat) as [H0 _]. lra.
Qed.

Lemma sweep_sinking (l : list Debris) :
  Forall sinking l -> Forall sinking (reverseSweep stepDebris fallenOut l).
Proof.
  intros H. rewrite reverseSweep_filter. apply Forall_forall. intros d Hd.
  apply filter_In in Hd. destruct Hd as [Hd _].
  apply in_map_iff in Hd. destruct Hd as (d0 & <- & Hin).
  rewrite Forall_forall in H. specialize (H d0 Hin).
  unfold sinking, stepDebris in *. cbn [velocity vy]. lra.
Qed.

Lemma reachable_sinking (s : Engine) : reachable s -> Forall sinking (debris s).
Proof.
  revert s.
  apply (reachable_closed_ind (fun s => Forall sinking (debris s))).
  - constructor.
  - intros; constructor.
  - intros s p _ H _ _. apply Forall_removelast, H.
  - intros s _ H _ _. apply Forall_removelast, H.
  - intros rnd s c p _ _ H _ _ _ _. exact H.
  - intros rnd s c p Hr _ H _ _ _ _ _. cbn [afterTrim debris]. cbv zeta.
    destruct (cutDebris _ _ _ _ _ _ _) as [piece|] eqn:E; [|exact H].
    apply Forall_push; [exact H|]. apply (cutDebris_sinking _ _ _ _ _ _ _ _ Hr E).
  - intros rnd s c p _ _ H _ _ _ _ _. cbn [afterMiss debris].
    apply Forall_push; [exact H|]. unfold sinking. cbn [velocity vy]. lra.
  - intros s c p _ H _ _ _. apply sweep_sinking, H.
  - intros s _ H _. apply sweep_sinking, H.
  - intros; constructor.
Qed.

(** ** The active axis follows the height of the tower *)

Lemma axisOfHeight_succ (n : nat) :
  axisOfHeight (S n) = otherAxis (axisOfHeight n).
Proof.
  unfold axisOfHeight. rewrite Nat.odd_succ, <- Nat.negb_odd.
  destruct (Nat.odd n); reflexivity.
Qed.

Lemma reachable_axis (s : Engine) :
  reachable s -> stack s = [] \/ axis s = axisOfHeight (length (stack s)).
Proof.
  revert s.
  apply (reachable_closed_ind
           (fun s => stack s = [] \/ axis s = axisOfHeight (length (stack s)))).
  - right. reflexivity.
  - intros; right; reflexivity.
  - intros s p _ H _ _. exact H.
  - intros s _ H _ _. exact H.
  - intros rnd s c p _ _ H _ _ Htop _. right.
    destruct H as [H|H]; [rewrite H in Htop; discriminate|].
    cbn [afterSnap axis stack]. rewrite length_push, axisOfHeight_succ, H.
    reflexivity.
  - intros rnd s c p _ _ H _ _ Htop _ _. right.
    destruct H as [H|H]; [rewrite H in Htop; discriminate|].
    cbn [afterTrim axis stack]. rewrite length_push, axisOfHeight_succ, H.
    reflexivity.
  - intros rnd s c p _ _ H _ _ _ _ _. exact H.
  - intros s c p _ H _ _ _. exact H.
  - intros s _ H _. exact H.
  - intros; left; reflexivity.
Qed.

(** ** The travel of the moving block *)

Lemma actualSpeed_bounds (sc : Z) :
  (0 <= sc)%Z -> 0.15 <= actualSpeed sc /\ actualSpeed sc <= 0.4.
Proof.
  intros H. unfold actualSpeed, moveSpeed.
  assert (Hq : 0 <= inject_Z sc)
    by (change 0 with (inject_Z 0); now rewrite <- Zle_Qle).
  revert Hq. generalize (inject_Z sc). intros q Hq. split.
  - apply Q.min_glb; lra.
  - apply Q.le_min_r.
Qed.

Lemma Qabs_gt_cases (t z : Q) : t < Qabs z -> z < - t \/ t < z.
Proof.
  intros H.
  destruct (Qlt_le_dec z (- t)) as [Hl|Hl]; [left; exact Hl|].
  destruct (Qlt_le_dec t z) as [Hr|Hr]; [right; exact Hr|].
  exfalso. apply (Qlt_not_le _ _ H). apply Qabs_Qle_condition. split; assumption.
Qed.

Lemma offset_spawned (a : Axis) (combo : Z) (p : Mesh) :
  offset a (spawned a combo p) p == - (12).
Proof. unfold offset, spawnDist. destruct a; cbn [spawned position coord vx vz]; unfold spawnDist; lra. Qed.

Lemma level_spawned (a : Axis) (combo : Z) (p : Mesh) :
  coord (otherAxis a) (position (spawned a combo p))
  = coord (otherAxis a) (position p).
Proof. destruct a; reflexivity. Qed.

(** A running engine whose moving block has just been spawned over the
    tower top. *)
Lemma spawn_oscillating (s : Engine) (combo : Z) (p : Mesh) :
  direction s = 1 \/ direction s = - (1) ->
  (0 <= score s)%Z ->
  currentBlock s = Some (spawned (axis s) combo p) ->
  top (stack s) = Some p ->
  oscillating s.
Proof.
  intros Hdir Hsc Hc Hp. split; [exact Hdir|].
  intros c0 p0 _ Hc0 Hp0. rewrite Hc in Hc0. rewrite Hp in Hp0.
  injection Hc0 as <-. injection Hp0 as <-. cbv zeta.
  destruct (actualSpeed_bounds _ Hsc) as [Hv _].
  pose proof (offset_spawned (axis s) combo p) as Hd.
  split; [apply level_spawned|].
  unfold turnDist. rewrite Hd. repeat split; try lra; intros H; lra.
Qed.

Lemma offset_moved (a : Axis) (step : Q) (c p : Mesh) :
  offset a (moved a step c) p == offset a c p + step.
Proof. unfold offset. destruct a; cbn [moved setX setZ position coord vx vz]; lra. Qed.

Lemma level_moved (a : Axis) (step : Q) (c : Mesh) :
  coord (otherAxis a) (position (moved a step c))
  = coord (otherAxis a) (position c).
Proof. destruct a; reflexivity. Qed.

Lemma frame_oscillating (s : Engine) (c p : Mesh) :
  (0 <= score s)%Z ->
  isGameRunning s = true -> currentBlock s = Some c -> top (stack s) = Some p ->
  oscillating s -> oscillating (afterFrame s c p).
Proof.
  intros Hsc Hrun Hc Hp [Hdir Hosc].
  destruct (Hosc c p Hrun Hc Hp) as (Hlevel & Hlo & Hhi & Hout & Hin).
  destruct (actualSpeed_bounds _ Hsc) as [Hv _].
  set (v := actualSpeed (score s)) in *.
  set (d := offset (axis s) c p) in *.
  assert (Hd' : offset (axis s) (moved (axis s) (v * direction s) c) p
                == d + v * direction s) by apply offset_moved.
  unfold turnDist in *.
  split.
  - cbn [afterFrame direction].
    destruct (Qltb 13 _); [|exact Hdir].
    destruct Hdir as [-> | ->]; [right | left]; reflexivity.
  - intros c0 p0 _ Hc0 Hp0. cbn [afterFrame currentBlock stack] in Hc0, Hp0.
    rewrite Hp in Hp0. injection Hc0 as <-. injection Hp0 as <-.
    cbn [afterFrame axis score direction]. cbv zeta. fold v.
    split; [rewrite level_moved; exact Hlevel|].
    unfold turnDist.
    destruct (Qltb 13 (Qabs (offset (axis s) (moved (axis s) (v * direction s) c) p)))
      eqn:Hturn; rewrite Hd'.
    + apply Qltb_lt in Hturn. rewrite Hd' in Hturn.
      apply Qabs_gt_cases in Hturn.
      destruct Hdir as [E|E]; rewrite E in *.
      * assert (d <= 13)
          by (destruct (Qlt_le_dec 13 d) as [H|H]; [|exact H];
              specialize (Hout H); discriminate).
        repeat split; try lra; intros H1; first [reflexivity | lra].
      * assert (- (13) <= d)
          by (destruct (Qlt_le_dec d (- (13))) as [H|H]; [|exact H];
              specialize (Hin H); discriminate).
        repeat split; try lra; intros H1; first [reflexivity | lra].
    + apply Qltb_ge in Hturn. rewrite Hd' in Hturn.
      apply Qabs_Qle_condition in Hturn.
      repeat split; try lra; intros H1; lra.
Qed.

Lemma reachable_oscillating (s : Engine) : reachable s -> oscillating s.
Proof.
  apply reachable_closed_ind; clear s.
  - split; [left; reflexivity|]. intros c p H. discriminate.
  - intros s _ _.
    apply (spawn_oscillating _ 0%Z baseBlock);
      [left; reflexivity | cbn; lia | reflexivity | reflexivity].
  - intros s p Hs [Hdir _] _ Htop.
    apply (spawn_oscillating _ (comboCounter s) p);
      [exact Hdir | apply (reachable_tallied s Hs) | reflexivity | exact Htop].
  - intros s _ [Hdir _] _ _. split; [exact Hdir|]. intros c p _ H. discriminate.
  - intros rnd s c p _ Hs [Hdir _] _ _ _ _.
    destruct (reachable_tallied s Hs) as (Hsc & _).
    pose proof (multiplier_pos (comboCounter s + 1)).
    unfold afterSnap. cbv zeta.
    eapply spawn_oscillating;
      [exact Hdir | cbn; lia | reflexivity | cbn [stack]; apply top_push].
  - intros rnd s c p _ Hs [Hdir _] _ _ _ _ _.
    destruct (reachable_tallied s Hs) as (Hsc & _).
    unfold afterTrim. cbv zeta.
    eapply spawn_oscillating;
      [exact Hdir | cbn; lia | reflexivity | cbn [stack]; apply top_push].
  - intros rnd s c p _ _ [Hdir _] _ _ _ _ _. split; [exact Hdir|].
    intros c0 p0 H. discriminate.
  - intros s c p Hs H Hrun Hc Hp.
    apply frame_oscillating; try assumption. apply (reachable_tallied s Hs).
  - intros s _ [Hdir Hosc] Hidle. split; [exact Hdir|].
    intros c p Hrun Hc Hp. cbn [afterIdleFrame isGameRunning currentBlock] in *.
    destruct Hidle as [E|E]; [rewrite E in Hrun | rewrite E in Hc]; discriminate.
  - intros s _ [Hdir _]. split; [exact Hdir|]. intros c p _ H. discriminate.
Qed.

(** ** Further properties of the engine *)

(** X1.  On every engine the game can reach, the score and the combo counter
    are not negative, and the score is at least the number of blocks laid on
    the base block. *)
Theorem X1_counters_cover_tower (s : Engine) :
  reachable s ->
  (0 <= score s)%Z /\ (0 <= comboCounter s)%Z /\
  (Z.of_nat (length (stack s)) <= score s + 1)%Z.
Proof. apply reachable_tallied. Qed.

Lemma X1_counters_cover_tower_witness :
  (0 <= score narrowTower)%Z /\ (0 <= comboCounter narrowTower)%Z /\
  (Z.of_nat (length (stack narrowTower)) <= score narrowTower + 1)%Z.
Proof. apply (X1_counters_cover_tower narrowTower reachable_narrowTower). Defined.

(** X2.  A tap never lowers the score, on any engine: either it leaves tower
    and score as they are (guarded call, exception or miss), or it lays one
    block on the tower and raises the score by the multiplier, which is at
    least 1. *)
Theorem X2_tap_never_lowers_score (rnd : nat -> Q) (s : Engine) :
  let s' := engineOf (placeBlock rnd s) in
  (stack s' = stack s /\ score s' = score s) \/
  (exists b, stack s' = push (stack s) b /\ (score s + 1 <= score s')%Z /\
             isGameRunning s' = true).
Proof.
  cbv zeta.
  destruct (isGameRunning s) eqn:Hrun;
    [|left; rewrite placeBlock_idle by (left; exact Hrun); split; reflexivity].
  destruct (currentBlock s) as [c|] eqn:Hcur;
    [|left; rewrite placeBlock_idle by (right; exact Hcur); split; reflexivity].
  destruct (top (stack s)) as [p|] eqn:Htop.
  - destruct (Qlt_le_dec 0 (overlap (measure (axis s) (currentTolerance (score s)) c p)))
      as [Hov|Hov].
    + destruct (placeBlock_success rnd s c p Hrun Hcur Htop Hov)
        as (s' & placed & b & E & Er & Es & _ & _ & _ & _ & _ & _ & Esc & _).
      right. rewrite E. cbn [engineOf]. exists placed.
      split; [exact Es|]. split; [|exact Er]. rewrite Esc.
      match goal with |- (_ <= _ + multiplier ?k)%Z =>
        pose proof (multiplier_pos k) end. lia.
    + destruct (placeBlock_miss rnd s c p Hrun Hcur Htop Hov)
        as (s' & m & E & _ & Es & _ & _ & _ & _ & _ & Esc & _).
      left. rewrite E. cbn [engineOf]. split; assumption.
  - left. unfold placeBlock. rewrite Hrun, Hcur, Htop. split; reflexivity.
Qed.

(** X3.  On every engine the game can reach, placeBlock, the frame loop and
    startGame return normally; reviveGame throws exactly when the game is not
    running and the tower is empty, which is the state dispose leaves. *)
Theorem X3_reachable_calls_return (rnd : nat -> Q) (s : Engine) :
  reachable s ->
  thrown (placeBlock rnd s) = false /\
  thrown (animate s) = false /\
  thrown (startGame s) = false /\
  (thrown (reviveGame s) = true <-> isGameRunning s = false /\ stack s = []).
Proof.
  intros Hs. pose proof (reachable_wellFormed s Hs) as [Ht _ Hfit _].
  split; [|split; [|split]].
  - destruct (isGameRunning s) eqn:Hrun;
      [|rewrite placeBlock_idle by (left; exact Hrun); reflexivity].
    destruct (currentBlock s) as [c|] eqn:Hcur;
      [|rewrite placeBlock_idle by (right; exact Hcur); reflexivity].
    destruct (top_some (stack s)) as [p Htop]; [apply Ht; discriminate|].
    assert (Hpos : 0 < extent (axis s) c)
      by (destruct (Hfit c eq_refl) as (? & _ & ? & _);
          destruct (axis s); assumption).
    destruct (placeBlock_cases rnd s c p Hrun Hcur Htop Hpos)
      as [(_ & E)|[(_ & _ & E)|(_ & _ & E)]]; rewrite E; reflexivity.
  - destruct (animate_done s Ht) as (s' & -> & _). reflexivity.
  - rewrite startGame_done. reflexivity.
  - destruct (isGameRunning s) eqn:Hrun.
    + rewrite (reviveGame_running s Hrun). split; [discriminate|].
      intros [H _]. discriminate.
    + destruct (top (stack s)) as [p|] eqn:Htop.
      * rewrite (reviveGame_eq s p Hrun Htop). split; [discriminate|].
        intros [_ H]. rewrite H in Htop. discriminate.
      * assert (Hnil : stack s = [])
          by (destruct (stack s) as [|m l] eqn:E; [reflexivity|];
              destruct (top_some (m :: l)) as [x Hx]; [discriminate|];
              rewrite Hx in Htop; discriminate).
        rewrite (reviveGame_empty s Hrun Hnil). split; [|reflexivity].
        intros _. split; [reflexivity | exact Hnil].
Qed.

Lemma X3_reachable_calls_return_witness :
  thrown (placeBlock steadyDraws (dispose newEngine)) = false /\
  thrown (animate (dispose newEngine)) = false /\
  thrown (startGame (dispose newEngine)) = false /\
  (thrown (reviveGame (dispose newEngine)) = true <->
   isGameRunning (dispose newEngine) = false /\ stack (dispose newEngine) = []).
Proof.
  apply (X3_reachable_calls_return steadyDraws (dispose newEngine)).
  apply reach_dispose, reach_new.
Defined.

(** X4.  On every engine the game can reach the tower is a column: the block
    at index i sits at height i (the base block at 0), and while the game is
    running the moving block sits one block above the tower top.  (Once the
    game is over the block that was missed is falling debris.) *)
Theorem X4_tower_is_a_column (s : Engine) :
  reachable s ->
  (forall i m, nth_error (stack s) i = Some m ->
     vy (position m) == inject_Z (Z.of_nat i)) /\
  (forall c, isGameRunning s = true -> currentBlock s = Some c ->
     vy (position c) == inject_Z (Z.of_nat (length (stack s)))).
Proof.
  intros Hs. destruct (reachable_stacked s Hs) as [Hl Hc].
  split; [exact Hl|]. intros c _ E. apply Hc, E.
Qed.

Lemma X4_tower_is_a_column_witness :
  vy (position baseBlock) == inject_Z (Z.of_nat 0) /\
  vy (position firstBlock) == inject_Z (Z.of_nat (length (stack freshGame))).
Proof.
  destruct (X4_tower_is_a_column freshGame reachable_freshGame) as [Hl Hc].
  split; [apply (Hl 0%nat baseBlock eq_refl)
         | apply (Hc firstBlock eq_refl eq_refl)].
Defined.

(** X5.  On every engine the game can reach, running or not, with or
    without a moving block, the direction is 1 or -1; and
    while the game runs the moving block stays level with the tower top
    across the active axis and within 13.4 of it along the active axis (the
    turning distance 13 plus one frame at top speed). *)
Theorem X5_moving_block_stays_in_range (s : Engine) :
  reachable s ->
  (direction s = 1 \/ direction s = - (1)) /\
  (forall c p,
     isGameRunning s = true -> currentBlock s = Some c ->
     top (stack s) = Some p ->
     coord (otherAxis (axis s)) (position c)
     = coord (otherAxis (axis s)) (position p) /\
     Qabs (offset (axis s) c p) <= 13.4).
Proof.
  intros Hs.
  destruct (reachable_oscillating s Hs) as [Hdir Hosc].
  split; [exact Hdir|]. intros c p Hrun Hc Hp.
  destruct (Hosc c p Hrun Hc Hp) as (Hlevel & Hlo & Hhi & _).
  destruct (reachable_tallied s Hs) as (Hsc & _).
  destruct (actualSpeed_bounds _ Hsc) as [_ Hv].
  split; [exact Hlevel|].
  apply Qabs_Qle_condition. unfold turnDist in *. split; lra.
Qed.

Lemma X5_moving_block_stays_in_range_witness :
  (direction newEngine = 1 \/ direction newEngine = - (1)) /\
  (direction freshGame = 1 \/ direction freshGame = - (1)) /\
  coord (otherAxis (axis freshGame)) (position firstBlock)
  = coord (otherAxis (axis freshGame)) (position baseBlock) /\
  Qabs (offset (axis freshGame) firstBlock baseBlock) <= 13.4.
Proof.
  split; [apply (X5_moving_block_stays_in_range newEngine reach_new)|].
  destruct (X5_moving_block_stays_in_range freshGame reachable_freshGame)
    as [Hdir Hrange].
  split; [exact Hdir|].
  apply (Hrange firstBlock baseBlock eq_refl eq_refl eq_refl).
Defined.

(** X6.  On every engine the game can reach with a tower, the active axis is
    x when the tower holds an odd number of blocks and z when it holds an
    even number: the axis alternates with every block laid and with nothing
    else. *)
Theorem X6_axis_follows_tower_height (s : Engine) :
  reachable s -> stack s <> [] ->
  axis s = (if Nat.odd (length (stack s)) then AxisX else AxisZ).
Proof.
  intros Hs Hne. destruct (reachable_axis s Hs) as [H|H]; [contradiction|].
  exact H.
Qed.

Lemma X6_axis_follows_tower_height_witness :
  axis burstGame = (if Nat.odd (length (stack burstGame)) then AxisX else AxisZ).
Proof.
  apply (X6_axis_follows_tower_height burstGame reachable_burstGame).
  vm_compute. discriminate.
Defined.

(** ** Frames without taps *)

Lemma animateN_snoc (n : nat) (s : Engine) :
  animateN (S n) s = animateN n s >>= animate.
Proof.
  revert s. induction n as [|n IH]; intros s.
  - cbn [animateN bind]. destruct (animate s); reflexivity.
  - change (animateN (S (S n)) s) with (animate s >>= animateN (S n)).
    change (animateN (S n) s) with (animate s >>= animateN n).
    destruct (animate s) as [s1|s1]; cbn [bind]; [apply IH | reflexivity].
Qed.

Lemma reachable_animateN_done (n : nat) (s : Engine) :
  reachable s -> exists s', animateN n s = Done s' /\ reachable s'.
Proof.
  revert s. induction n as [|n IH]; intros s Hs.
  - exists s. split; [reflexivity | exact Hs].
  - pose proof (reachable_wellFormed s Hs) as [Ht _ _ _].
    destruct (animate_done s Ht) as (s1 & E & _).
    pose proof (reach_animate s Hs) as H1. rewrite E in H1. cbn [engineOf] in H1.
    destruct (IH s1 H1) as (s' & E' & Hs').
    exists s'. cbn [animateN]. rewrite E. cbn [bind]. split; assumption.
Qed.

Lemma Forall_absurd {A : Type} (P : A -> Prop) (l : list A) :
  Forall P l -> (forall x, P x -> False) -> l = [].
Proof.
  intros H Hno. destruct H as [|x l Hx _]; [reflexivity|].
  destruct (Hno x Hx).
Qed.

Lemma inject_succ_mult (n : nat) (k : Q) :
  inject_Z (Z.of_nat (S n)) * k == inject_Z (Z.of_nat n) * k + k.
Proof. rewrite inject_succ. ring. Qed.

Lemma particles_fade (n : nat) (s s' : Engine) :
  reachable s -> animateN n s = Done s' ->
  Forall (fun q => life q < 1.5 - inject_Z (Z.of_nat n) * 0.05) (particles s').
Proof.
  revert s'. induction n as [|n IH]; intros s' Hs E.
  - injection E as <-.
    pose proof (reachable_wellFormed s Hs) as [_ _ _ Hp].
    eapply Forall_impl; [|exact Hp]. intros q [_ H]. cbn.
    change (inject_Z 0) with 0. lra.
  - rewrite animateN_snoc in E.
    destruct (reachable_animateN_done n s Hs) as (s1 & E1 & Hs1).
    rewrite E1 in E. cbn [bind] in E. specialize (IH s1 Hs E1).
    pose proof (reachable_wellFormed s1 Hs1) as [Ht _ _ _].
    destruct (animate_done s1 Ht) as (s2 & E2 & _ & _ & Ep & _).
    rewrite E in E2. injection E2 as <-. rewrite Ep.
    apply Forall_forall. intros q Hq. apply filter_In in Hq. destruct Hq as [Hq _].
    apply in_map_iff in Hq. destruct Hq as (q0 & <- & Hin).
    rewrite Forall_forall in IH. specialize (IH q0 Hin). cbn beta in IH.
    rewrite inject_succ_mult. unfold stepParticle. cbn [life].
    revert IH. generalize (inject_Z (Z.of_nat n)). intros k IH. lra.
Qed.

(** X7.  Particles are short-lived: on every engine the game can reach, thirty
    frames in a row (or more) with no tap in between leave no particle. *)
Theorem X7_particles_gone_after_30_frames (n : nat) (s : Engine) :
  reachable s -> (30 <= n)%nat ->
  thrown (animateN n s) = false /\ particles (engineOf (animateN n s)) = [].
Proof.
  intros Hs Hn. destruct (reachable_animateN_done n s Hs) as (s' & E & Hs').
  rewrite E. cbn [thrown engineOf]. split; [reflexivity|].
  pose proof (particles_fade n s s' Hs E) as Hup.
  pose proof (reachable_wellFormed s' Hs') as [_ _ _ Hlo].
  assert (Hboth : Forall (fun q => life q < 0 /\ 0 < life q) (particles s')).
  { rewrite Forall_forall in *. intros q Hq.
    specialize (Hup q Hq). specialize (Hlo q Hq). destruct Hlo as [Hlo _].
    split; [|exact Hlo].
    assert (H30 : 30 <= inject_Z (Z.of_nat n))
      by (change 30 with (inject_Z (Z.of_nat 30)); rewrite <- Zle_Qle; lia).
    cbn beta in Hup. revert Hup H30. generalize (inject_Z (Z.of_nat n)).
    intros k Hup H30. lra. }
  apply (Forall_absurd _ _ Hboth). intros q [H1 H2]. lra.
Qed.

Lemma X7_particles_gone_after_30_frames_witness :
  thrown (animateN 30 burstGame) = false /\
  particles (engineOf (animateN 30 burstGame)) = [].
Proof.
  apply (X7_particles_gone_after_30_frames 30 burstGame reachable_burstGame).
  apply le_n.
Defined.

Lemma debris_descend (n : nat) (Y : Q) (s s' : Engine) :
  reachable s ->
  Forall (fun d => vy (position (mesh d)) <= Y) (debris s) ->
  animateN n s = Done s' ->
  Forall (fun d => vy (position (mesh d)) <= Y - inject_Z (Z.of_nat n) * 0.1)
    (debris s').
Proof.
  revert s'. induction n as [|n IH]; intros s' Hs HY E.
  - injection E as <-. eapply Forall_impl; [|exact HY]. intros d H.
    cbn in *. change (inject_Z 0) with 0. lra.
  - rewrite animateN_snoc in E.
    destruct (reachable_animateN_done n s Hs) as (s1 & E1 & Hs1).
    rewrite E1 in E. cbn [bind] in E. specialize (IH s1 Hs HY E1).
    pose proof (reachable_wellFormed s1 Hs1) as [Ht _ _ _].
    pose proof (reachable_sinking s1 Hs1) as Hsink.
    destruct (animate_done s1 Ht) as (s2 & E2 & _ & Ed & _).
    rewrite E in E2. injection E2 as <-. rewrite Ed.
    apply Forall_forall. intros d Hd. apply filter_In in Hd. destruct Hd as [Hd _].
    apply in_map_iff in Hd. destruct Hd as (d0 & <- & Hin).
    rewrite Forall_forall in IH, Hsink.
    specialize (IH d0 Hin). specialize (Hsink d0 Hin).
    unfold sinking in Hsink. cbn beta in IH.
    rewrite inject_succ_mult. unfold stepDebris, vadd. cbn [mesh position vy].
    revert IH. generalize (inject_Z (Z.of_nat n)). intros k IH. lra.
Qed.

(** X8.  Debris only falls and then leaves: on every engine the game can
    reach every piece of debris has a downward speed of at least 0.1 per
    frame, and if no piece is higher than Y, then n >= 1 frames in a row with
    Y - 0.1 n < -30 leave no debris. *)
Theorem X8_debris_falls_out (n : nat) (Y : Q) (s : Engine) :
  reachable s ->
  Forall (fun d => vy (position (mesh d)) <= Y) (debris s) ->
  (1 <= n)%nat -> Y - inject_Z (Z.of_nat n) * 0.1 < - (30) ->
  Forall (fun d => vy (velocity d) <= - 0.1) (debris s) /\
  debris (engineOf (animateN n s)) = [].
Proof.
  intros Hs HY Hn Hlow. split; [exact (reachable_sinking s Hs)|].
  destruct n as [|n]; [lia|].
  destruct (reachable_animateN_done (S n) s Hs) as (s' & E & Hs').
  pose proof (debris_descend (S n) Y s s' Hs HY E) as Hup.
  rewrite E. cbn [engineOf].
  rewrite animateN_snoc in E.
  destruct (reachable_animateN_done n s Hs) as (s1 & E1 & Hs1).
  rewrite E1 in E. cbn [bind] in E.
  pose proof (reachable_wellFormed s1 Hs1) as [Ht _ _ _].
  destruct (animate_done s1 Ht) as (s2 & E2 & _ & Ed & _).
  rewrite E in E2. injection E2 as <-.
  assert (Hboth : Forall (fun d => vy (position (mesh d)) < - (30) /\
                                   - (30) <= vy (position (mesh d))) (debris s')).
  { rewrite Forall_forall in *. intros d Hd. specialize (Hup d Hd). cbn beta in Hup.
    split; [revert Hup Hlow; generalize (inject_Z (Z.of_nat (S n)));
            intros k Hup Hlow; lra|].
    rewrite Ed in Hd. apply filter_In in Hd. destruct Hd as [_ Hd].
    apply negb_true_iff in Hd. unfold fallenOut in Hd. apply Qltb_ge in Hd.
    exact Hd. }
  apply (Forall_absurd _ _ Hboth). intros d [H1 H2]. lra.
Qed.

Lemma X8_debris_falls_out_witness :
  Forall (fun d => vy (velocity d) <= - 0.1) (debris trimmedGame) /\
  debris (engineOf (animateN 311 trimmedGame)) = [].
Proof.
  apply (X8_debris_falls_out 311 1 trimmedGame).
  - apply (reach_place _ _ unitDraws_steady), (reachable_animateN 61),
      reachable_freshGame.
  - apply Forall_forall. intros d Hd. apply Qle_bool_iff. revert d Hd.
    apply forallb_forall. vm_compute. reflexivity.
  - apply Nat.leb_le. reflexivity.
  - vm_compute. reflexivity.
Defined.

(** ** Tolerance floor *)

Lemma tolerance_floor (sc : Z) : errorTolerance <= currentTolerance sc.
Proof.
  unfold currentTolerance, difficultyRamp, initialErrorTolerance, errorTolerance.
  destruct (Z.ltb_spec sc 15); [|apply Qle_refl].
  cbv zeta. unfold Qdiv. change (/ inject_Z 15) with (1 # 15).
  assert (Hq : inject_Z sc < 15)
    by (change 15 with (inject_Z 15); now rewrite <- Zlt_Qlt).
  revert Hq. generalize (inject_Z sc). intros q Hq. lra.
Qed.

(** ** Revive *)

(** X9.  Reviving right after a miss undoes the game over: the engine runs
    again with the tower, the debris, the particles, the score, the axis and
    the direction it had before the tap; the combo counter is 0, and the new
    moving block has the extents of the tower top and starts 12 before it on
    the active axis.  Only the onGameOver call stays on record. *)
Theorem X9_revive_undoes_a_miss (rnd : nat -> Q) (s : Engine) (c p : Mesh) :
  isGameRunning s = true -> currentBlock s = Some c -> top (stack s) = Some p ->
  currentTolerance (score s) <= Qabs (offset (axis s) c p) ->
  extent (axis s) p - Qabs (offset (axis s) c p) <= 0 ->
  exists s1 s2 b,
    placeBlock rnd s = Done s1 /\ reviveGame s1 = Done s2 /\
    isGameRunning s2 = true /\
    stack s2 = stack s /\ debris s2 = debris s /\ particles s2 = particles s /\
    score s2 = score s /\ axis s2 = axis s /\ direction s2 = direction s /\
    comboCounter s2 = 0%Z /\
    emitted s2 = push (emitted s) (GameOver (score s)) /\
    currentBlock s2 = Some b /\
    width b = width p /\ depth b = depth p /\
    offset (axis s) b p == - (12).
Proof.
  intros Hrun Hcur Htop Htol Hmiss.
  exists (afterMiss rnd s c), (afterRevive (afterMiss rnd s c) p),
    (spawned (axis s) 0 p).
  split; [apply (placeBlock_miss_eq rnd s c p); assumption|].
  split; [apply reviveGame_eq; [reflexivity | exact Htop]|].
  cbn [afterRevive afterMiss isGameRunning stack debris particles score axis
       direction comboCounter emitted currentBlock].
  unfold push at 1. rewrite removelast_last.
  repeat split; try reflexivity. apply offset_spawned.
Qed.

Lemma X9_revive_undoes_a_miss_witness :
  exists s1 s2 b,
    placeBlock steadyDraws edgeGame = Done s1 /\ reviveGame s1 = Done s2 /\
    isGameRunning s2 = true /\
    stack s2 = stack edgeGame /\ debris s2 = debris edgeGame /\
    particles s2 = particles edgeGame /\
    score s2 = score edgeGame /\ axis s2 = axis edgeGame /\
    direction s2 = direction edgeGame /\
    comboCounter s2 = 0%Z /\
    emitted s2 = push (emitted edgeGame) (GameOver (score edgeGame)) /\
    currentBlock s2 = Some b /\
    width b = width baseBlock /\ depth b = depth baseBlock /\
    offset (axis edgeGame) b baseBlock == - (12).
Proof.
  apply (X9_revive_undoes_a_miss steadyDraws edgeGame (setX (- 3) firstBlock)
           baseBlock eq_refl eq_refl eq_refl);
    apply Qle_bool_iff; vm_compute; reflexivity.
Defined.

(** ** Geometry of a placement *)

(** X10.  A trimmed placement cuts the block to the tower top: the block
    laid has extent (reference extent - |delta|) along the active axis, lies
    within the faces of the tower top, flush with the face on the side the
    block came in over, and keeps its height.  What is cut off has extent
    |delta|; it becomes one piece of debris, flush against the laid block on
    the far side and as long as it across the axis, exactly when the block
    is more than 0.05 across the axis; when it is 0.05 or less across, no
    debris is made.  (The other sliver test of the source, on |delta|, never
    fails here: |delta| is at least the tolerance, hence above 0.05.) *)
Theorem X10_trim_fits_the_tower_top (rnd : nat -> Q) (s : Engine) (c p : Mesh) :
  isGameRunning s = true -> currentBlock s = Some c -> top (stack s) = Some p ->
  let a := axis s in
  let d := offset a c p in
  currentTolerance (score s) <= Qabs d ->
  0 < extent a p - Qabs d ->
  exists s' placed,
    placeBlock rnd s = Done s' /\
    top (stack s') = Some placed /\
    extent a placed + Qabs d == extent a p /\
    extent (otherAxis a) placed = extent (otherAxis a) c /\
    vy (position placed) = vy (position c) /\
    lowEdge a p <= lowEdge a placed /\ highEdge a placed <= highEdge a p /\
    (0 < d -> highEdge a placed == highEdge a p) /\
    (d < 0 -> lowEdge a placed == lowEdge a p) /\
    0.05 < Qabs d /\
    (0.05 < extent (otherAxis a) c ->
     exists piece,
       debris s' = push (debris s) piece /\
       extent a (mesh piece) = Qabs d /\
       extent (otherAxis a) (mesh piece) = extent (otherAxis a) placed /\
       (0 < d -> lowEdge a (mesh piece) == highEdge a placed) /\
       (d < 0 -> highEdge a (mesh piece) == lowEdge a placed)) /\
    (extent (otherAxis a) c <= 0.05 -> debris s' = debris s).
Proof.
  intros Hrun Hcur Htop a d Htol Hov.
  assert (Hm : 0.05 < Qabs d).
  { pose proof (tolerance_floor (score s)) as Hfloor.
    unfold errorTolerance in Hfloor. lra. }
  exists (afterTrim rnd s c p). eexists.
  split; [apply placeBlock_trim_eq; assumption|].
  split; [cbn [afterTrim stack]; apply top_push|].
  assert (Hcase : (0 < d /\ Qabs d == d) \/ (d < 0 /\ Qabs d == - d)).
  { pose proof (tolerance_floor (score s)) as Hfloor. unfold errorTolerance in Hfloor.
    destruct (Qlt_le_dec d 0) as [H|H].
    - right. split; [exact H|]. apply Qabs_neg. lra.
    - assert (E : Qabs d == d) by (apply Qabs_pos; exact H).
      left. split; [lra | exact E]. }
  assert (Hd0 : Qeq_bool d 0 = false).
  { apply not_true_iff_false. intros E. apply Qeq_bool_iff in E.
    destruct Hcase as [[H _]|[H _]]; lra. }
  assert (Hsign : Qltb 0 d = true /\ 0 < d \/ Qltb 0 d = false /\ d < 0).
  { destruct Hcase as [[H _]|[H _]].
    - left. split; [apply Qltb_lt|]; exact H.
    - right. split; [apply Qltb_ge; lra | exact H]. }
  unfold afterTrim. cbv zeta. fold a. fold d.
  cbn [debris]. unfold cutDebris. rewrite Hd0.
  unfold lowEdge, highEdge, landed, setX, setZ, setGeometry.
  revert Hov Hcase Hsign Hm. generalize (Qabs d). clearbody d.
  intros m Hov Hcase Hsign Hm.
  destruct a;
    cbn [extent otherAxis coord position width depth vx vy vz];
    unfold Qdiv; change (/ 2) with (1 # 2).
  - split; [lra|]. split; [reflexivity|]. split; [reflexivity|].
    split; [destruct Hcase as [[? ?]|[? ?]]; lra|].
    split; [destruct Hcase as [[? ?]|[? ?]]; lra|].
    split; [intros; destruct Hcase as [[? ?]|[? ?]]; lra|].
    split; [intros; destruct Hcase as [[? ?]|[? ?]]; lra|].
    split; [exact Hm|].
    destruct (Qltb 0.05 m && Qltb 0.05 (depth c)) eqn:Hbig.
    + apply andb_true_iff in Hbig. destruct Hbig as [_ Hother].
      apply Qltb_lt in Hother.
      split; [intros _ | intros Hthin; exfalso; lra].
      eexists. split; [reflexivity|].
      cbn [mesh position width depth vx]. split; [reflexivity|].
      split; [reflexivity|].
      destruct Hsign as [[-> H]|[-> H]]; split; intros; lra.
    + apply andb_false_iff in Hbig.
      assert (Hthin : depth c <= 0.05)
        by (destruct Hbig as [H|H]; apply Qltb_ge in H; [exfalso; lra | exact H]).
      split; [intros Hwide; exfalso; lra | intros _; reflexivity].
  - split; [lra|]. split; [reflexivity|]. split; [reflexivity|].
    split; [destruct Hcase as [[? ?]|[? ?]]; lra|].
    split; [destruct Hcase as [[? ?]|[? ?]]; lra|].
    split; [intros; destruct Hcase as [[? ?]|[? ?]]; lra|].
    split; [intros; destruct Hcase as [[? ?]|[? ?]]; lra|].
    split; [exact Hm|].
    destruct (Qltb 0.05 (width c) && Qltb 0.05 m) eqn:Hbig.
    + apply andb_true_iff in Hbig. destruct Hbig as [Hother _].
      apply Qltb_lt in Hother.
      split; [intros _ | intros Hthin; exfalso; lra].
      eexists. split; [reflexivity|].
      cbn [mesh position width depth vz]. split; [reflexivity|].
      split; [reflexivity|].
      destruct Hsign as [[-> H]|[-> H]]; split; intros; lra.
    + apply andb_false_iff in Hbig.
      assert (Hthin : width c <= 0.05)
        by (destruct Hbig as [H|H]; apply Qltb_ge in H; [exact H | exfalso; lra]).
      split; [intros Hwide; exfalso; lra | intros _; reflexivity].
Qed.

Lemma X10_trim_fits_the_tower_top_witness :
  (exists s' placed piece,
     placeBlock steadyDraws shiftedGame = Done s' /\
     top (stack s') = Some placed /\
     width placed + Qabs (offset AxisX (setX (- 0.9) firstBlock) baseBlock)
     == width baseBlock /\
     lowEdge AxisX baseBlock <= lowEdge AxisX placed /\
     highEdge AxisX placed <= highEdge AxisX baseBlock /\
     debris s' = push (debris shiftedGame) piece /\
     width (mesh piece)
     = Qabs (offset AxisX (setX (- 0.9) firstBlock) baseBlock)) /\
  (exists s',
     placeBlock steadyDraws thinGame = Done s' /\ debris s' = debris thinGame).
Proof.
  split.
  - destruct (X10_trim_fits_the_tower_top steadyDraws shiftedGame
                (setX (- 0.9) firstBlock) baseBlock eq_refl eq_refl eq_refl)
      as (s' & placed & E & Et & Ew & _ & _ & Hlo & Hhi & _ & _ & _ & Hcut & _).
    + apply Qle_bool_iff. vm_compute. reflexivity.
    + apply Qltb_lt. vm_compute. reflexivity.
    + destruct Hcut as (piece & Ed & Ep & _).
      { apply Qltb_lt. vm_compute. reflexivity. }
      exists s', placed, piece.
      split; [exact E|]. split; [exact Et|]. split; [exact Ew|].
      split; [exact Hlo|]. split; [exact Hhi|]. split; [exact Ed | exact Ep].
  - destruct (X10_trim_fits_the_tower_top steadyDraws thinGame
                (mkMesh (Vec (- 0.9) 3 1.48) (Vec 0 0 0) 3 0.04)
                (mkMesh (Vec 0 2 1.48) (Vec 0 0 0) 3 0.04)
                eq_refl eq_refl eq_refl)
      as (s' & placed & E & _ & _ & _ & _ & _ & _ & _ & _ & _ & _ & Hnone).
    + apply Qle_bool_iff. vm_compute. reflexivity.
    + apply Qltb_lt. vm_compute. reflexivity.
    + exists s'. split; [exact E|]. apply Hnone.
      apply Qle_bool_iff. vm_compute. reflexivity.
Defined.

(** X11.  An offset smaller than the final tolerance 0.2 is a snap at every
    score: the combo counter goes up by one, the block is laid with its own
    extents, centred on the tower top along the active axis, nothing is cut
    off, and a burst of twenty particles is added. *)
Theorem X11_small_offsets_always_snap (rnd : nat -> Q) (s : Engine) (c p : Mesh) :
  isGameRunning s = true -> currentBlock s = Some c -> top (stack s) = Some p ->
  let a := axis s in
  Qabs (offset a c p) < errorTolerance ->
  0 < extent a c ->
  exists s' placed,
    placeBlock rnd s = Done s' /\
    isGameRunning s' = true /\
    comboCounter s' = (comboCounter s + 1)%Z /\
    top (stack s') = Some placed /\
    width placed = width c /\ depth placed = depth c /\
    coord a (position placed) == coord a (position p) /\
    coord (otherAxis a) (position placed) = coord (otherAxis a) (position c) /\
    debris s' = debris s /\
    length (particles s') = (length (particles s) + 20)%nat.
Proof.
  intros Hrun Hcur Htop a Hsmall Hpos.
  assert (Hsnap : Qabs (offset a c p) < currentTolerance (score s))
    by (eapply Qlt_le_trans; [exact Hsmall | apply tolerance_floor]).
  exists (afterSnap rnd s c p). eexists.
  split; [apply placeBlock_snap_eq; assumption|].
  unfold afterSnap. cbv zeta. fold a.
  cbn [isGameRunning comboCounter stack debris particles].
  rewrite top_push, length_app, length_map, length_seq.
  split; [reflexivity|]. split; [reflexivity|]. split; [reflexivity|].
  unfold landed, snapped, setX, setZ, setGeometry.
  destruct a; cbn [coord otherAxis position width depth vx vz];
    unfold Qdiv; change (/ 2) with (1 # 2);
    repeat split; try reflexivity; lra.
Qed.

Lemma X11_small_offsets_always_snap_witness :
  exists s' placed,
    placeBlock steadyDraws centredGame = Done s' /\
    isGameRunning s' = true /\
    comboCounter s' = (comboCounter centredGame + 1)%Z /\
    top (stack s') = Some placed /\
    width placed = width centredBlock /\ depth placed = depth centredBlock /\
    coord (axis centredGame) (position placed)
    == coord (axis centredGame) (position baseBlock) /\
    coord (otherAxis (axis centredGame)) (position placed)
    = coord (otherAxis (axis centredGame)) (position centredBlock) /\
    debris s' = debris centredGame /\
    length (particles s') = (length (particles centredGame) + 20)%nat.
Proof.
  apply (X11_small_offsets_always_snap steadyDraws centredGame centredBlock baseBlock).
  - vm_compute. reflexivity.
  - vm_compute. reflexivity.
  - vm_compute. reflexivity.
  - apply Qltb_lt. vm_compute. reflexivity.
  - apply Qltb_lt. vm_compute. reflexivity.
Defined.

(** X12.  The speed of the moving block is a function of the score: it is
    between 0.15 and 0.4 per frame for every score >= 0, never decreases as
    the score grows, and is 0.4 from score 50 on.  A frame of a running game
    shifts the moving block by exactly that speed times the direction along
    the active axis and changes nothing else about the block, the tower, the
    score or the callbacks made. *)
Theorem X12_speed_ramp_and_frame_shift :
  (forall sc, (0 <= sc)%Z -> 0.15 <= actualSpeed sc /\ actualSpeed sc <= 0.4) /\
  (forall sc1 sc2, (sc1 <= sc2)%Z -> actualSpeed sc1 <= actualSpeed sc2) /\
  (forall sc, (50 <= sc)%Z -> actualSpeed sc == 0.4) /\
  (forall s c p,
     isGameRunning s = true -> currentBlock s = Some c -> top (stack s) = Some p ->
     exists s' c',
       animate s = Done s' /\ currentBlock s' = Some c' /\
       offset (axis s) c' p
       == offset (axis s) c p + actualSpeed (score s) * direction s /\
       coord (otherAxis (axis s)) (position c')
       = coord (otherAxis (axis s)) (position c) /\
       vy (position c') = vy (position c) /\
       width c' = width c /\ depth c' = depth c /\
       stack s' = stack s /\ score s' = score s /\
       comboCounter s' = comboCounter s /\ axis s' = axis s /\
       emitted s' = emitted s).
Proof.
  split; [exact actualSpeed_bounds|]. split; [|split].
  - intros sc1 sc2 H. unfold actualSpeed, moveSpeed.
    apply Q.min_le_compat_r. rewrite Zle_Qle in H.
    revert H. generalize (inject_Z sc1) (inject_Z sc2). intros q1 q2 H. lra.
  - intros sc H. unfold actualSpeed, moveSpeed. apply Q.min_r.
    assert (Hq : 50 <= inject_Z sc)
      by (change 50 with (inject_Z 50); now rewrite <- Zle_Qle).
    revert Hq. generalize (inject_Z sc). intros q Hq. lra.
  - intros s c p Hrun Hc Hp.
    exists (afterFrame s c p), (moved (axis s) (actualSpeed (score s) * direction s) c).
    split; [apply animate_moving_eq; assumption|].
    split; [reflexivity|]. split; [apply offset_moved|].
    split; [apply level_moved|]. split; [apply vy_moved|].
    cbn [afterFrame stack score comboCounter axis emitted].
    destruct (axis s); repeat split; reflexivity.
Qed.

Lemma X12_speed_ramp_and_frame_shift_witness :
  (0.15 <= actualSpeed 20 /\ actualSpeed 20 <= 0.4) /\
  actualSpeed 3 <= actualSpeed 20 /\
  actualSpeed 60 == 0.4 /\
  exists s' c',
    animate freshGame = Done s' /\ currentBlock s' = Some c' /\
    offset AxisX c' baseBlock
    == offset AxisX firstBlock baseBlock + actualSpeed 0 * 1.
Proof.
  destruct X12_speed_ramp_and_frame_shift as (Hband & Hmono & Hcap & Hframe).
  split; [apply Hband; discriminate|].
  split; [apply Hmono; discriminate|].
  split; [apply Hcap; discriminate|].
  destruct (Hframe freshGame firstBlock baseBlock eq_refl eq_refl eq_refl)
    as (s' & c' & E & Ec & Eo & _).
  exists s', c'. repeat split; assumption.
Defined.

(** X13.  The reverse loop with splice of the frame loop visits every entry
    exactly once: its result is the list of updated entries that are not
    finished, in their original order, so it is never longer than the input
    and it is empty on the empty list. *)
Theorem X13_reverse_sweep_compacts {A : Type} (step : A -> A) (gone : A -> bool)
    (l : list A) :
  reverseSweep step gone l = filter (fun e => negb (gone e)) (map step l) /\
  (length (reverseSweep step gone l) <= length l)%nat.
Proof.
  rewrite reverseSweep_filter. split; [reflexivity|].
  eapply Nat.le_trans; [apply filter_length_le|].
  rewrite length_map. apply le_n.
Qed.

(** ** The combo bonus restores the block *)

Lemma grow_min (e : Q) :
  e <= defaultBlockSize -> grow e == Qmin defaultBlockSize (e + growthFactor).
Proof.
  intros H. unfold grow. destruct (Qltb e defaultBlockSize) eqn:E; [reflexivity|].
  apply Qltb_ge in E. unfold defaultBlockSize, growthFactor in *.
  destruct (Q.min_spec 3 (e + 0.5)) as [[H1 H2]|[H1 H2]]; rewrite H2; lra.
Qed.

(** X20.  The growth bonus restores a trimmed block step by step: applied n
    times to an extent e <= defaultBlockSize it gives
    min (defaultBlockSize, e + n * growthFactor), so six bonus spawns in a
    row bring any block of positive extent back to the full size, where it
    stays. *)
Theorem X20_bonus_restores_full_size (e : Q) (n : nat) :
  0 < e -> e <= defaultBlockSize ->
  Nat.iter n grow e
  == Qmin defaultBlockSize (e + inject_Z (Z.of_nat n) * growthFactor) /\
  ((6 <= n)%nat -> Nat.iter n grow e == defaultBlockSize).
Proof.
  intros H0 H3.
  assert (Hiter : Nat.iter n grow e
                  == Qmin defaultBlockSize (e + inject_Z (Z.of_nat n) * growthFactor)).
  { induction n as [|n IH].
    - change (Nat.iter 0 grow e) with e. change (inject_Z (Z.of_nat 0)) with 0.
      unfold defaultBlockSize, growthFactor in *.
      destruct (Q.min_spec 3 (e + 0 * 0.5)) as [[H1 H2]|[H1 H2]]; rewrite H2; lra.
    - rewrite Nat.iter_succ.
      assert (Hle : Nat.iter n grow e <= defaultBlockSize)
        by (rewrite IH; apply Q.le_min_l).
      rewrite (grow_min _ Hle), inject_succ_mult.
      revert IH. generalize (Nat.iter n grow e) (inject_Z (Z.of_nat n)).
      intros x k IH. unfold defaultBlockSize, growthFactor in *.
      destruct (Q.min_spec 3 (e + k * 0.5)) as [[H1 H2]|[H1 H2]];
        rewrite H2 in IH;
        destruct (Q.min_spec 3 (x + 0.5)) as [[H4 H5]|[H4 H5]]; rewrite H5;
        destruct (Q.min_spec 3 (e + (k * 0.5 + 0.5))) as [[H6 H7]|[H6 H7]];
        rewrite H7; lra. }
  split; [exact Hiter|].
  intros Hn. rewrite Hiter. apply Q.min_l.
  assert (Hk : 6 <= inject_Z (Z.of_nat n))
    by (change 6 with (inject_Z (Z.of_nat 6)); rewrite <- Zle_Qle; lia).
  revert Hk. generalize (inject_Z (Z.of_nat n)). intros k Hk.
  unfold defaultBlockSize, growthFactor in *. lra.
Qed.

Lemma X20_bonus_restores_full_size_witness :
  Nat.iter 6 grow 0.15 == defaultBlockSize.
Proof.
  destruct (X20_bonus_restores_full_size 0.15 6) as [_ Hfull].
  - reflexivity.
  - apply Qle_bool_iff. reflexivity.
  - apply Hfull. apply le_n.
Defined.

(** ** Block colours *)

Lemma getLayerColor_rem (layer : Z) :
  Color.getLayerColor layer = Color.getLayerColor (Z.rem layer 20).
Proof.
  unfold Color.getLayerColor. cbv zeta.
  rewrite (Z.rem_rem layer 20) by discriminate. reflexivity.
Qed.

Lemma cycle_cases (k : Z) :
  (0 <= k < 20 ->
   k = 0 \/ k = 1 \/ k = 2 \/ k = 3 \/ k = 4 \/ k = 5 \/ k = 6 \/ k = 7 \/
   k = 8 \/ k = 9 \/ k = 10 \/ k = 11 \/ k = 12 \/ k = 13 \/ k = 14 \/
   k = 15 \/ k = 16 \/ k = 17 \/ k = 18 \/ k = 19)%Z.
Proof. lia. Qed.

Ltac each_layer H :=
  repeat (destruct H as [H|H]; [subst|]); [..|subst].

(** X14.  getLayerColor is defined for every layer >= 0, and every channel
    it returns is between 0 and 255; it repeats every 20 layers; layer 0, the
    base block, gets the first palette colour.  On every engine the game can
    reach the layer of the next block, score + 1, has a colour (the lookup
    cannot throw).  For a negative layer that is not a multiple of 20 the
    palette lookup throws. *)
Theorem X14_layer_colour_defined :
  (forall layer, (0 <= layer)%Z ->
     (exists c, Color.getLayerColor layer = Some c /\ Color.inGamut c) /\
     Color.getLayerColor (layer + 20) = Color.getLayerColor layer) /\
  Color.getLayerColor 0 = nth_error Color.BLOCK_PALETTE 0 /\
  (forall s, reachable s ->
     exists c, Color.getLayerColor (score s + 1) = Some c /\ Color.inGamut c) /\
  (forall layer, (layer < 0)%Z -> Z.rem layer 20 <> 0%Z ->
     Color.getLayerColor layer = None).
Proof.
  assert (Hdef : forall layer, (0 <= layer)%Z ->
                 exists c, Color.getLayerColor layer = Some c /\ Color.inGamut c).
  { intros layer H. rewrite getLayerColor_rem.
    pose proof (Z.rem_bound_pos layer 20 H ltac:(lia)) as Hk.
    apply cycle_cases in Hk. revert Hk. generalize (Z.rem layer 20). intros k Hk.
    each_layer Hk; vm_compute; eexists; (split; [reflexivity|]);
      repeat split; discriminate. }
  split; [|split; [|split]].
  - intros layer H. split; [exact (Hdef layer H)|].
    rewrite (getLayerColor_rem (layer + 20)), (getLayerColor_rem layer).
    f_equal. rewrite !Z.rem_mod_nonneg by lia.
    rewrite <- (Z.mul_1_l 20) at 1. apply Z.mod_add. discriminate.
  - reflexivity.
  - intros s Hs. destruct (reachable_tallied s Hs) as (H0 & _).
    apply Hdef. lia.
  - intros layer Hneg Hrem. rewrite getLayerColor_rem.
    assert (Hk : (0 <= - Z.rem layer 20 < 20)%Z).
    { pose proof (Z.rem_bound_pos_neg layer 20 ltac:(lia) ltac:(lia)). lia. }
    apply cycle_cases in Hk. revert Hk Hrem. generalize (Z.rem layer 20).
    intros k Hk Hrem.
    each_layer Hk; try lia;
      match goal with H : (- k = ?n)%Z |- _ =>
        replace k with (- n)%Z by lia end; reflexivity.
Qed.

Lemma X14_layer_colour_defined_witness :
  (exists c, Color.getLayerColor 7 = Some c /\ Color.inGamut c) /\
  Color.getLayerColor (7 + 20) = Color.getLayerColor 7 /\
  (exists c, Color.getLayerColor (score narrowTower + 1) = Some c /\
             Color.inGamut c) /\
  Color.getLayerColor (- 7) = None.
Proof.
  destruct X14_layer_colour_defined as (Hdef & _ & Hgame & Hneg).
  destruct (Hdef 7%Z) as [H1 H2]; [discriminate|].
  split; [exact H1|]. split; [exact H2|].
  split; [apply Hgame, reachable_narrowTower|].
  apply Hneg; [reflexivity | discriminate].
Defined.

(** X15.  The palette interpolation passes through the first four palette
    colours exactly, at layers 0, 5, 10 and 15 of every cycle of 20, and never
    shows the fifth one: the cycle ends four fifths of the way to it and
    starts again from the first. *)
Theorem X15_palette_stops :
  (forall q i, (0 <= q)%Z -> (0 <= i <= 3)%Z ->
     Color.getLayerColor (20 * q + 5 * i)
     = nth_error Color.BLOCK_PALETTE (Z.to_nat i)) /\
  (forall layer, (0 <= layer)%Z ->
     Color.getLayerColor layer <> nth_error Color.BLOCK_PALETTE 4).
Proof.
  split.
  - intros q i Hq Hi. rewrite getLayerColor_rem.
    assert (E : Z.rem (20 * q + 5 * i) 20 = (5 * i)%Z).
    { rewrite Z.rem_mod_nonneg by lia.
      replace (20 * q + 5 * i)%Z with (5 * i + q * 20)%Z by lia.
      rewrite Z.mod_add by discriminate. apply Z.mod_small. lia. }
    rewrite E.
    assert (Hc : (i = 0 \/ i = 1 \/ i = 2 \/ i = 3)%Z) by lia.
    destruct Hc as [E1 | [E1 | [E1 | E1]]]; rewrite E1; reflexivity.
  - intros layer H. rewrite getLayerColor_rem.
    pose proof (Z.rem_bound_pos layer 20 H ltac:(lia)) as Hk.
    apply cycle_cases in Hk. revert Hk. generalize (Z.rem layer 20). intros k Hk.
    each_layer Hk; vm_compute; discriminate.
Qed.

Lemma X15_palette_stops_witness :
  Color.getLayerColor (20 * 2 + 5 * 3) = nth_error Color.BLOCK_PALETTE 3 /\
  Color.getLayerColor 19 <> nth_error Color.BLOCK_PALETTE 4.
Proof.
  destruct X15_palette_stops as [Hstop Hlast].
  split; [apply (Hstop 2 3)%Z; lia | apply Hlast; discriminate].
Defined.

(** ** Camera *)

Lemma aspect_below_one (w h : Z) :
  (0 < h)%Z -> Qltb (inject_Z w / inject_Z h) 1 = (w <? h)%Z.
Proof.
  intros Hh.
  assert (Hq : 0 < inject_Z h)
    by (change 0 with (inject_Z 0); now rewrite <- Zlt_Qlt).
  destruct (Z.ltb_spec w h) as [H|H].
  - apply Qltb_lt. apply Qlt_shift_div_r; [exact Hq|].
    rewrite Qmult_1_l. now rewrite <- Zlt_Qlt.
  - apply Qltb_ge. apply Qle_shift_div_l; [exact Hq|].
    rewrite Qmult_1_l. now rewrite <- Zle_Qle.
Qed.

(** X16.  handleResize leaves the view untouched when the container has no
    width or no height.  Otherwise it records the size and sets a frustum
    centred on the axis whose half height is 12 for a portrait container and
    9 otherwise, and whose width to height ratio is that of the container, so
    the picture is not stretched; resizing twice to the same size is the same
    as resizing once. *)
Theorem X16_resize_keeps_aspect (w h : Z) (v : Camera.View) :
  ((w = 0 \/ h = 0)%Z -> Camera.handleResize w h v = v) /\
  ((0 < w)%Z -> (0 < h)%Z ->
     let v' := Camera.handleResize w h v in
     Camera.top v' = (if (w <? h)%Z then 12 else 9) /\
     Camera.bottom v' == - Camera.top v' /\
     Camera.left v' == - Camera.right v' /\
     (Camera.right v' - Camera.left v') * inject_Z h
     == (Camera.top v' - Camera.bottom v') * inject_Z w /\
     Camera.canvasWidth v' = w /\ Camera.canvasHeight v' = h /\
     Camera.positionY v' = Camera.positionY v /\
     Camera.handleResize w h v' = v').
Proof.
  split.
  - intros [-> | ->]; unfold Camera.handleResize; [reflexivity|].
    rewrite orb_true_r. reflexivity.
  - intros Hw Hh. cbv zeta. unfold Camera.handleResize.
    destruct (Z.eqb_spec w 0); [lia|]. destruct (Z.eqb_spec h 0); [lia|].
    cbn [orb Camera.top Camera.bottom Camera.left Camera.right Camera.canvasWidth
         Camera.canvasHeight Camera.positionY].
    rewrite (aspect_below_one w h Hh).
    assert (Hq : ~ inject_Z h == 0).
    { intros E. assert (0 < inject_Z h)
        by (change 0 with (inject_Z 0); now rewrite <- Zlt_Qlt).
      rewrite E in H. apply (Qlt_irrefl 0 H). }
    split; [reflexivity|]. split; [reflexivity|]. split; [ring|].
    split; [field; exact Hq|]. repeat split; reflexivity.
Qed.

Lemma X16_resize_keeps_aspect_witness :
  Camera.handleResize 0 600 (Camera.mkView 0 0 0 0 20 0 0)
  = Camera.mkView 0 0 0 0 20 0 0 /\
  Camera.top (Camera.handleResize 400 800 (Camera.mkView 0 0 0 0 20 0 0)) = 12 /\
  Camera.top (Camera.handleResize 800 400 (Camera.mkView 0 0 0 0 20 0 0)) = 9.
Proof.
  destruct (X16_resize_keeps_aspect 0 600 (Camera.mkView 0 0 0 0 20 0 0))
    as [Hnone _].
  destruct (X16_resize_keeps_aspect 400 800 (Camera.mkView 0 0 0 0 20 0 0))
    as [_ Htall].
  destruct (X16_resize_keeps_aspect 800 400 (Camera.mkView 0 0 0 0 20 0 0))
    as [_ Hwide].
  split; [apply Hnone; left; reflexivity|].
  split; [apply Htall; reflexivity | apply Hwide; reflexivity].
Defined.

(** X17.  Each frame the camera closes one twentieth of its distance to the
    target height, which is 20 above the top of the tower while the game runs
    and 21 otherwise: after n frames on an unchanged engine the distance left
    is (19/20)^n of what it was, so a camera below the target never passes
    it.  Nothing but its height changes, and with no tower at all the camera
    stays put. *)
Theorem X17_camera_closes_in (n : nat) (s : Engine) (v : Camera.View) :
  (stack s = [] -> Camera.follow s v = v) /\
  (stack s <> [] ->
     let v' := Nat.iter n (Camera.follow s) v in
     Camera.camTargetY s - Camera.positionY v'
     == (19 # 20) ^ Z.of_nat n * (Camera.camTargetY s - Camera.positionY v) /\
     (Camera.positionY v <= Camera.camTargetY s ->
      Camera.positionY v' <= Camera.camTargetY s) /\
     Camera.left v' = Camera.left v /\ Camera.right v' = Camera.right v /\
     Camera.top v' = Camera.top v /\ Camera.bottom v' = Camera.bottom v /\
     Camera.canvasWidth v' = Camera.canvasWidth v /\
     Camera.canvasHeight v' = Camera.canvasHeight v) /\
  Camera.camTargetY s
  = 20 + (if isGameRunning s
          then inject_Z (Z.of_nat (length (stack s))) * blockHeight
          else blockHeight).
Proof.
  split; [|split; [|reflexivity]].
  - intros E. unfold Camera.follow. rewrite E. reflexivity.
  - intros Hne. cbv zeta.
    assert (Hiter :
      Camera.camTargetY s - Camera.positionY (Nat.iter n (Camera.follow s) v)
      == (19 # 20) ^ Z.of_nat n * (Camera.camTargetY s - Camera.positionY v) /\
      Camera.left (Nat.iter n (Camera.follow s) v) = Camera.left v /\
      Camera.right (Nat.iter n (Camera.follow s) v) = Camera.right v /\
      Camera.top (Nat.iter n (Camera.follow s) v) = Camera.top v /\
      Camera.bottom (Nat.iter n (Camera.follow s) v) = Camera.bottom v /\
      Camera.canvasWidth (Nat.iter n (Camera.follow s) v) = Camera.canvasWidth v /\
      Camera.canvasHeight (Nat.iter n (Camera.follow s) v) = Camera.canvasHeight v).
    { induction n as [|n IH].
      - change (Nat.iter 0 (Camera.follow s) v) with v.
        change (Z.of_nat 0) with 0%Z.
        rewrite Qpower_0_r. split; [ring|]. repeat split; reflexivity.
      - destruct IH as (Ey & E1 & E2 & E3 & E4 & E5 & E6).
        rewrite Nat.iter_succ. unfold Camera.follow at 1 3 5 7 9 11 13.
        destruct (stack s) as [|m l] eqn:Es; [contradiction|].
        cbn [Camera.positionY Camera.left Camera.right Camera.top Camera.bottom
             Camera.canvasWidth Camera.canvasHeight].
        split; [|repeat split; assumption].
        rewrite Nat2Z.inj_succ. unfold Z.succ.
        rewrite Qpower_plus by (intros E; discriminate E).
        rewrite Qpower_1_r, (Qmult_comm (_ ^ _)), <- Qmult_assoc, <- Ey. ring. }
    destruct Hiter as (Ey & Erest). split; [exact Ey|]. split; [|exact Erest].
    intros Hbelow.
    assert (Hpow : 0 <= (19 # 20) ^ Z.of_nat n)
      by (apply Qpower_0_le; discriminate).
    assert (Hgap : 0 <= Camera.camTargetY s - Camera.positionY v) by lra.
    pose proof (Qmult_le_0_compat _ _ Hpow Hgap) as Hprod.
    rewrite <- Ey in Hprod. lra.
Qed.

Lemma X17_camera_closes_in_witness :
  Camera.camTargetY freshGame
  - Camera.positionY
      (Nat.iter 2 (Camera.follow freshGame) (Camera.mkView 0 0 0 0 20 0 0))
  == (19 # 20) ^ 2 * (Camera.camTargetY freshGame - 20) /\
  Camera.positionY
    (Nat.iter 2 (Camera.follow freshGame) (Camera.mkView 0 0 0 0 20 0 0))
  <= Camera.camTargetY freshGame.
Proof.
  destruct (X17_camera_closes_in 2 freshGame (Camera.mkView 0 0 0 0 20 0 0))
    as (_ & Hmove & _).
  destruct Hmove as (Hgap & Hbelow & _); [discriminate|].
  split; [exact Hgap|]. apply Hbelow. apply Qle_bool_iff. vm_compute. reflexivity.
Defined.

(** ** Sound *)

Lemma tone_defined (sm : SoundManager.t) :
  exists freq,
    SoundManager.tone sm = Some freq /\ In freq SoundManager.SCALE.
Proof.
  unfold SoundManager.tone.
  destruct (nth_error SoundManager.SCALE
              (SoundManager.noteIndex sm mod length SoundManager.SCALE)) as [f|] eqn:E.
  - exists f. split; [reflexivity|]. eapply nth_error_In, E.
  - exfalso. apply nth_error_None in E.
    pose proof (Nat.mod_upper_bound (SoundManager.noteIndex sm)
                  (length SoundManager.SCALE) ltac:(discriminate)). lia.
Qed.

(** X18.  Every note of the melody is one of the 21 tones of the scale: the
    index never leaves the array.  playPlace and playPerfect move the melody
    on by one tone whether or not anything is heard; when audio is available
    playPlace sounds the tone, playPerfect sounds it brightly and adds the
    fifth above (3/2 of the frequency) exactly when the combo is above 5.
    The melody repeats after 21 notes. *)
Theorem X18_notes_come_from_the_scale (combo : Z) (sm : SoundManager.t) :
  exists freq,
    SoundManager.tone sm = Some freq /\ In freq SoundManager.SCALE /\
    SoundManager.playPlace sm
    = Some (SoundManager.advance sm,
            if SoundManager.audible sm
            then [SoundManager.Note freq false] else []) /\
    SoundManager.playPerfect combo sm
    = Some (SoundManager.advance sm,
            if SoundManager.audible sm
            then SoundManager.Note freq true
                 :: (if (combo >? 5)%Z
                     then [SoundManager.Note (freq * 1.5) false] else [])
            else []) /\
    SoundManager.tone
      (SoundManager.mkSound (SoundManager.context sm) (SoundManager.isMuted sm)
         (SoundManager.noteIndex sm + 21))
    = Some freq.
Proof.
  destruct (tone_defined sm) as (freq & E & Hin).
  exists freq. split; [exact E|]. split; [exact Hin|].
  unfold SoundManager.playPlace, SoundManager.playPerfect, SoundManager.playNote.
  rewrite E. split; [reflexivity|]. split.
  - destruct (SoundManager.audible sm); [|destruct (combo >? 5)%Z; reflexivity].
    reflexivity.
  - unfold SoundManager.tone in *. cbn [SoundManager.noteIndex].
    change (length SoundManager.SCALE) with 21%nat in *.
    rewrite <- E. f_equal.
    rewrite <- (Nat.mul_1_l 21) at 1. apply Nat.Div0.mod_add.
Qed.

(** X19.  A sequence of sound calls never fails, and never switches audio on
    or off.  Without audio nothing is heard and the melody index only counts
    up: playGameOver does not reset it, so the next game continues where the
    last one stopped.  With audio every playGameOver restarts the melody at
    the first tone of the scale. *)
Theorem X19_melody_position (cs : list SoundManager.Call) (sm : SoundManager.t) :
  exists sm' heard,
    SoundManager.playAll cs sm = Some (sm', heard) /\
    SoundManager.audible sm' = SoundManager.audible sm /\
    (SoundManager.audible sm = false ->
       heard = [] /\
       SoundManager.noteIndex sm'
       = (SoundManager.noteIndex sm
          + length (filter SoundManager.isNote cs))%nat) /\
    (SoundManager.audible sm = true ->
       SoundManager.noteIndex sm'
       = SoundManager.melodyIndex cs (SoundManager.noteIndex sm)).
Proof.
  revert sm. induction cs as [|c cs IH]; intros sm.
  - exists sm, []. cbn. repeat split; lia.
  - assert (Hstep : exists sm1 h1,
              SoundManager.play c sm = Some (sm1, h1) /\
              SoundManager.audible sm1 = SoundManager.audible sm /\
              (SoundManager.audible sm = false ->
                 h1 = [] /\
                 SoundManager.noteIndex sm1
                 = (SoundManager.noteIndex sm
                    + (if SoundManager.isNote c then 1 else 0))%nat) /\
              (SoundManager.audible sm = true ->
                 SoundManager.noteIndex sm1
                 = match c with
                   | SoundManager.Over => 0%nat
                   | _ => S (SoundManager.noteIndex sm)
                   end)).
    { destruct (tone_defined sm) as (freq & E & _).
      destruct c as [|combo|]; cbn [SoundManager.play SoundManager.isNote].
      - unfold SoundManager.playPlace, SoundManager.playNote. rewrite E.
        eexists. eexists. split; [reflexivity|]. split; [reflexivity|].
        split; [intros ->; split; [reflexivity | cbn; lia] | reflexivity].
      - unfold SoundManager.playPerfect, SoundManager.playNote. rewrite E.
        eexists. eexists. split; [reflexivity|]. split; [reflexivity|].
        split; [intros ->; split; [destruct (combo >? 5)%Z; reflexivity
                                  | cbn; lia] | reflexivity].
      - unfold SoundManager.playGameOver.
        destruct (SoundManager.audible sm) eqn:Ha;
          eexists; eexists; (split; [reflexivity|]);
          (split; [first [exact Ha | reflexivity]|]);
          split; intros H; try discriminate; [reflexivity | split; [reflexivity | lia]]. }
    destruct Hstep as (sm1 & h1 & E1 & Ea1 & Hs1 & Ha1).
    destruct (IH sm1) as (sm2 & h2 & E2 & Ea2 & Hs2 & Ha2).
    exists sm2, (h1 ++ h2). cbn [SoundManager.playAll]. rewrite E1, E2.
    split; [reflexivity|]. split; [congruence|]. split.
    + intros Hs. destruct (Hs1 Hs) as [-> Hn1].
      destruct Hs2 as [-> Hn2]; [congruence|].
      split; [reflexivity|]. rewrite Hn2, Hn1. cbn [filter].
      destruct (SoundManager.isNote c); cbn [length]; lia.
    + intros Ha. rewrite Ha2 by congruence. rewrite (Ha1 Ha).
      destruct c; reflexivity.
Qed.

Lemma X19_melody_position_witness :
  (exists sm',
     SoundManager.playAll
       [SoundManager.Place; SoundManager.Perfect 6; SoundManager.Over;
        SoundManager.Place]
       (SoundManager.mkSound false false 5)
     = Some (sm', []) /\
     SoundManager.noteIndex sm' = 8%nat) /\
  (exists sm' heard,
     SoundManager.playAll
       [SoundManager.Place; SoundManager.Perfect 6; SoundManager.Over;
        SoundManager.Place]
       (SoundManager.mkSound true false 5)
     = Some (sm', heard) /\
     SoundManager.noteIndex sm' = 1%nat).
Proof.
  split.
  - destruct (X19_melody_position
                [SoundManager.Place; SoundManager.Perfect 6; SoundManager.Over;
                 SoundManager.Place]
                (SoundManager.mkSound false false 5))
      as (sm' & heard & E & _ & Hsilent & _).
    destruct (Hsilent eq_refl) as [Hh Hn]. subst heard.
    exists sm'. split; [exact E | exact Hn].
  - destruct (X19_melody_position
                [SoundManager.Place; SoundManager.Perfect 6; SoundManager.Over;
                 SoundManager.Place]
                (SoundManager.mkSound true false 5))
      as (sm' & heard & E & _ & _ & Hloud).
    exists sm', heard. split; [exact E | exact (Hloud eq_refl)].
Defined.
